(** * image-compare: a shallow embedding of [image_compare.py]

    The script reads two image files with OpenCV, scores their grey versions
    with scikit-image's structural similarity, and, when the score is below a
    threshold, draws red boxes around the differing regions and saves both
    pictures side by side with Pillow, going through two temporary PNG files.

    The embedding keeps the control flow of the two functions of the script
    ([compare_images] and [_save_image_diff]) statement by statement.  Storage,
    standard output and Python exceptions are explicit: a computation is a
    function from a [world] to a new [world] and either a value or a raised
    exception.  The numeric kernels of the external libraries (grey weights,
    SSIM, products of doubles, Otsu binarisation, contour tracing, line
    rasterisation) are the methods of the class [Vision]; everything the
    script itself decides is a definition below. *)

From Stdlib Require Import ZArith QArith Qround String Ascii List Lia.
From stdpp Require Import base option list list_numbers strings gmap.

Local Open Scope string_scope.

(** ** Pixels and grids *)

(** A numpy array of shape (h, w) or (h, w, 3), and a Pillow image, are both a
    list of rows. *)
Abbreviation grid A := (list (list A)).

(** Pillow's [size] is (width, height); numpy's [shape] is (height, width). *)
Definition height {A} (g : grid A) : nat := length g.
Definition width {A} (g : grid A) : nat := length (hd [] g).
Definition shape {A} (g : grid A) : nat * nat := (height g, width g).

(** The pixel at column [x] of row [y]. *)
Definition pixel_at {A} (g : grid A) (x y : nat) : option A :=
  (g !! y) ≫= (λ row, row !! x).

(** A decoded picture has at least one row and all its rows have the same,
    non-zero, length. *)
Definition rectangular {A} (g : grid A) : Prop :=
  0 < height g ∧ 0 < width g ∧ Forall (λ row, length row = width g) g.

(** A colour as the file formats and Pillow hold it. *)
Record rgb : Type := RGB { red : Z; green : Z; blue : Z }.

(** OpenCV arrays hold the channels in the order blue, green, red. *)
Definition bgr : Type := (Z * Z * Z)%type.

Definition bgr_of_rgb (c : rgb) : bgr := (blue c, green c, red c).
Definition rgb_of_bgr (c : bgr) : rgb := let '(b, g, r) := c in RGB r g b.

Definition gmap_grid {A B} (f : A → B) (g : grid A) : grid B :=
  (λ row : list A, f <$> row) <$> g.

(** ** Files and formats *)

Inductive format : Type := PNG | JPEG | BMP | TIFF.

(** What a path names: an encoded picture, a file that is no picture, or a
    directory. *)
Inductive file : Type :=
  | Picture (fmt : format) (pixels : grid rgb)
  | NotAnImage
  | Directory.

Definition is_directory (content : option file) : bool :=
  match content with
  | Some Directory => true
  | _ => false
  end.

(** The text after the last dot of a path. *)
Fixpoint extension (path : string) : option string :=
  match path with
  | EmptyString => None
  | String c rest =>
      match extension rest with
      | Some e => Some e
      | None => if Ascii.eqb c "." then Some rest else None
      end
  end.

(** The format a file name stands for, as OpenCV's [imwrite] and Pillow's
    [save] (without an explicit [format]) choose it. *)
Definition format_of_path (path : string) : option format :=
  match extension path with
  | Some "png" => Some PNG
  | Some "jpg" | Some "jpeg" => Some JPEG
  | Some "bmp" => Some BMP
  | Some "tif" | Some "tiff" => Some TIFF
  | _ => None
  end.

(** ** The world: storage and standard output *)

(** [files] maps a path to what it names.  [writable] tells at which paths
    the process is permitted to open a file for writing: to create it where
    the path names nothing, to overwrite it where it names a file.
    [unlinkable] tells at which paths the directory lets the process remove
    the entry; it is a permission of its own: in a read-only directory an
    existing file may be overwritten and not removed.  [stdout] holds the
    scores printed so far as 'SSIM: ...' lines, oldest first. *)
Record world : Type := World {
  files : gmap string file;
  writable : string → bool;
  unlinkable : string → bool;
  stdout : list Q
}.

Definition set_files (w : world) (fs : gmap string file) : world :=
  World fs (writable w) (unlinkable w) (stdout w).

(** A file can be written at a path when the process is permitted to and the
    path does not name a directory. *)
Definition can_write (w : world) (path : string) : bool :=
  writable w path && negb (is_directory (files w !! path)).

(** ** Exceptions and computations *)

Inductive exn : Type :=
  | Cv2Error                          (* cv2.error *)
  | ValueError                        (* raised by skimage *)
  | FileNotFoundError (path : string)
  | OSError (path : string).          (* any other OSError: not a picture,
                                         permission denied, is a directory *)

Inductive result (A : Type) : Type :=
  | Ok (a : A)
  | Raise (e : exn).
Arguments Ok {A} a.
Arguments Raise {A} e.

(** A statement runs in a world and leaves a world, whether it raises or
    not. *)
Definition M (A : Type) : Type := world → world * result A.

#[global] Instance M_ret : MRet M := λ A a w, (w, Ok a).
#[global] Instance M_bind : MBind M := λ A B f m w,
  match m w with
  | (w', Ok a) => f a w'
  | (w', Raise e) => (w', Raise e)
  end.

Definition raise {A} (e : exn) : M A := λ w, (w, Raise e).
Definition lift {A} (r : result A) : M A := λ w, (w, r).

(** [try: body  except: pass] *)
Definition try_except_pass (body : M unit) : M unit := λ w,
  match body w with
  | (w', Ok _) => (w', Ok ())
  | (w', Raise _) => (w', Ok ())
  end.

(** [try: body  finally: cleanup].  The cleanup always runs; an exception it
    raises replaces the outcome of the body. *)
Definition try_finally {A} (body : M A) (cleanup : M unit) : M A := λ w,
  match body w with
  | (w', r) =>
      match cleanup w' with
      | (w'', Ok _) => (w'', r)
      | (w'', Raise e) => (w'', Raise e)
      end
  end.

(** The python [<] on scores. *)
Definition Qltb (x y : Q) : bool := negb (Qle_bool y x).

(** ** The external libraries *)

(** The numeric kernels of OpenCV and scikit-image that the script calls and
    does not define.  Nothing is assumed about them. *)
Class Vision : Type := {
  (** the grey value [cv2.COLOR_BGR2GRAY] gives one pixel *)
  bgr2gray : bgr → Z;
  (** the windowed structural similarity of two grids of one shape, with
      [full=True]: the mean score and the per-pixel map, or an exception
      (for instance when the grids are smaller than the window) *)
  ssim_kernel : grid Z → grid Z → result (Q * grid Q);
  (** the product of two doubles as numpy computes it, that is, rounded to a
      double *)
  float_mul : Q → Q → Q;
  (** [cv2.threshold(_, 0, 255, THRESH_BINARY_INV | THRESH_OTSU)[1]] *)
  threshold_otsu_inv : grid Z → grid Z;
  (** [cv2.findContours(_, RETR_EXTERNAL, CHAIN_APPROX_SIMPLE)[1]]
      (OpenCV 3: the second component is the list of contours) *)
  findContours : grid Z → list (list (Z * Z));
  (** whether the outline of the box from [pt1] to [pt2], drawn with the given
      thickness, covers the pixel at column [x] of row [y] *)
  outline_covers : Z * Z → Z * Z → Z → Z → Z → bool
}.

Section Script.
Context `{Vision}.

(** What OpenCV decodes from the content found at a path: a BGR array, or
    nothing when the file is missing or is not a picture. *)
Definition decode (content : option file) : option (grid bgr) :=
  match content with
  | Some (Picture _ pixels) => Some (gmap_grid bgr_of_rgb pixels)
  | Some NotAnImage | Some Directory | None => None
  end.

(** [cv2.imread]: the decoded array or [None]; it never raises and never
    writes. *)
Definition imread (path : string) : M (option (grid bgr)) := λ w,
  (w, Ok (decode (files w !! path))).

(** Modelled from the spec: [cv2.cvtColor(_, cv2.COLOR_BGR2GRAY)], which is
    not part of the script.  Section 4.1: decoding fails with a DecodeError
    when a path does not exist, is unreadable or is not a decodable image;
    with OpenCV the error is the [cv2.error] that [cvtColor] raises on the
    [None] that [imread] returned.  The grey grid has the shape of its
    source. *)
Definition cvtColor (src : option (grid bgr)) : M (grid Z) :=
  match src with
  | None => raise Cv2Error
  | Some array => mret (gmap_grid bgr2gray array)
  end.

(** Modelled from the spec: [skimage.measure.compare_ssim(_, _, full=True)],
    which is not part of the script.  Section 4.2: the two grids must have
    identical width and height, and scoring fails with a
    DimensionMismatchError otherwise (scikit-image raises [ValueError]); on
    grids of one shape the outcome is the kernel's. *)
Definition compare_ssim (X Y : grid Z) : result (Q * grid Q) :=
  if decide (shape X = shape Y) then ssim_kernel X Y else Raise ValueError.

(** [(diff * 255).astype('uint8')]: the product is that of doubles; the
    conversion drops the fraction and wraps to 8 bits. *)
Definition Qtrunc (q : Q) : Z :=
  if Qle_bool 0 q then Qfloor q else Qceiling q.
Definition astype_uint8 (q : Q) : Z := (Qtrunc q) mod 256.
Definition rescale (diff : grid Q) : grid Z :=
  gmap_grid (λ v, astype_uint8 (float_mul v 255)) diff.

(** [cv2.boundingRect]: the smallest upright box (x, y, w, h) around the
    points of a contour. *)
Definition boundingRect (contour : list (Z * Z)) : Z * Z * Z * Z :=
  match contour with
  | [] => (0, 0, 0, 0)%Z
  | (x0, y0) :: rest =>
      let xmin := fold_left Z.min (map fst rest) x0 in
      let xmax := fold_left Z.max (map fst rest) x0 in
      let ymin := fold_left Z.min (map snd rest) y0 in
      let ymax := fold_left Z.max (map snd rest) y0 in
      (xmin, ymin, xmax - xmin + 1, ymax - ymin + 1)%Z
  end.

(** [cv2.rectangle(img, pt1, pt2, color, thickness)] repaints the covered
    pixels of the array in place; the array keeps its shape. *)
Definition rectangle (img : grid bgr) (pt1 pt2 : Z * Z) (color : bgr)
    (thickness : Z) : grid bgr :=
  imap (λ y row,
          imap (λ x px,
                  if outline_covers pt1 pt2 thickness (Z.of_nat x) (Z.of_nat y)
                  then color else px) row) img.

(** [cv2.imwrite]: encodes in the format of the file name's extension
    ([cv2.error] when it names none) and replaces what the path held.  When
    the file cannot be written it returns [False] and raises nothing. *)
Definition imwrite (path : string) (img : grid bgr) : M bool :=
  match format_of_path path with
  | None => raise Cv2Error
  | Some fmt => λ w,
      if can_write w path
      then (set_files w (<[path := Picture fmt (gmap_grid rgb_of_bgr img)]> (files w)),
            Ok true)
      else (w, Ok false)
  end.

(** [PIL.Image.open] *)
Definition Image_open (path : string) : M (grid rgb) := λ w,
  match files w !! path with
  | Some (Picture _ pixels) => (w, Ok pixels)
  | Some NotAnImage | Some Directory => (w, Raise (OSError path))
  | None => (w, Raise (FileNotFoundError path))
  end.

(** [PIL.Image.new('RGB', (w, h))]: a black canvas. *)
Definition Image_new (w h : nat) : grid rgb := replicate h (replicate w (RGB 0 0 0)).

(** One row of [paste]: the pixels of [src] replace those of [dst] from column
    [x] on, cut at the right edge of [dst]. *)
Definition paste_row (x : nat) (src dst : list rgb) : list rgb :=
  take x dst ++ take (length dst - x) src ++ drop (x + length src) dst.

(** [canvas.paste(image, (x, 0))] *)
Fixpoint paste (canvas image : grid rgb) (x : nat) : grid rgb :=
  match canvas, image with
  | crow :: canvas', irow :: image' => paste_row x irow crow :: paste canvas' image' x
  | _, [] => canvas
  | [], _ => []
  end.

(** [image.save(path, format=fmt)] *)
Definition Image_save (image : grid rgb) (path : string) (fmt : format) : M unit := λ w,
  if can_write w path
  then (set_files w (<[path := Picture fmt image]> (files w)), Ok ())
  else (w, Raise (OSError path)).

(** [os.remove]: removes a file where the directory permits it; raises on a
    path that names nothing (FileNotFoundError), on a directory
    (IsADirectoryError) and on a file that may not be removed
    (PermissionError), the last two being [OSError]s, and then leaves storage
    as it is. *)
Definition remove (path : string) : M unit := λ w,
  match files w !! path with
  | Some Directory => (w, Raise (OSError path))
  | Some _ =>
      if unlinkable w path
      then (set_files w (delete path (files w)), Ok ())
      else (w, Raise (OSError path))
  | None => (w, Raise (FileNotFoundError path))
  end.

(** [print('SSIM: {score}'.format(score=score))] *)
Definition print (score : Q) : M unit := λ w,
  (World (files w) (writable w) (unlinkable w) (stdout w ++ [score]), Ok ()).

(** ** The script *)

Definition _temp_image_one : string := ".temp-image-diff-one.png".
Definition _temp_image_two : string := ".temp-image-diff-two.png".

(** Lines 99 to 102: the two arrays go to the temporary files. *)
Definition write_temp_images (image_one image_two : grid bgr) : M unit :=
  imwrite _temp_image_one image_one;;
  imwrite _temp_image_two image_two;;
  mret ().

(** Lines 106 to 114: the canvas as wide as all the images together and as
    high as the highest, with the images pasted from left to right. *)
Definition side_by_side (images : list (grid rgb)) : grid rgb :=
  let widths := map width images in
  let heights := map height images in
  let total_width := sum_list widths in
  let total_height := max_list heights in
  let diff_image := Image_new total_width total_height in
  fst (fold_left (λ '(canvas, x_offset) image,
                    (paste canvas image x_offset, x_offset + width image))
                 images (diff_image, 0)).

(** Lines 105 to 116, the body of the [try]. *)
Definition compose_diff (file_path : string) : M unit :=
  images ← mapM Image_open [_temp_image_one; _temp_image_two];
  let diff_image := side_by_side images in
  Image_save diff_image file_path PNG.

(** Lines 121 to 123, the [finally]. *)
Definition remove_temp_images : M unit :=
  remove _temp_image_one;;
  remove _temp_image_two.

Definition _save_image_diff (image_one image_two : grid bgr) (file_path : string)
    : M unit :=
  write_temp_images image_one image_two;;
  try_finally (try_except_pass (compose_diff file_path)) remove_temp_images.

(** The loop of lines 72 to 75: one red box per contour, on both arrays. *)
Definition draw_boxes (contours : list (list (Z * Z))) (one two : grid bgr)
    : grid bgr * grid bgr :=
  fold_left (λ '(one, two) c,
               let '(x, y, w, h) := boundingRect c in
               (rectangle one (x, y) (x + w, y + h)%Z (0, 0, 255)%Z 2,
                rectangle two (x, y) (x + w, y + h)%Z (0, 0, 255)%Z 2))
            contours (one, two).

Definition compare_images (image_one image_two : string) (ssim_threshold : Q)
    (save_diff_to : option string) : M Q :=
  _image_one ← imread image_one;
  _image_two ← imread image_two;
  grayscale_one ← cvtColor _image_one;
  grayscale_two ← cvtColor _image_two;
  '(score, diff) ← lift (compare_ssim grayscale_one grayscale_two);
  print score;;
  (if Qltb score ssim_threshold then
     let diff := rescale diff in
     let threshold := threshold_otsu_inv diff in
     let contours := findContours threshold in
     match _image_one, _image_two with
     | Some array_one, Some array_two =>
         let '(array_one, array_two) := draw_boxes contours array_one array_two in
         match save_diff_to with
         | Some file_path => _save_image_diff array_one array_two file_path
         | None => mret ()
         end
     | _, _ => raise Cv2Error (* not reached: [cvtColor] has raised *)
     end
   else mret ());;
  mret score.

(** The defaults of the two optional parameters. *)
Definition default_ssim_threshold : Q := 1.
Definition default_save_diff_to : option string := Some "my-diff.png".

(** ** Names for what the statements below talk about *)

(** The grey grid of an array (line 50), and the two arrays with the boxes of
    lines 60 to 75 drawn from a similarity map. *)
Definition gray (array : grid bgr) : grid Z := gmap_grid bgr2gray array.

Definition annotated (diff : grid Q) (one two : grid bgr) : grid bgr * grid bgr :=
  draw_boxes (findContours (threshold_otsu_inv (rescale diff))) one two.

(** The world once the score is printed. *)
Definition printed (w : world) (score : Q) : world :=
  World (files w) (writable w) (unlinkable w) (stdout w ++ [score]).

(** What the two temporary files hold when both have been written. *)
Definition temps_written (image_one image_two : grid bgr)
    (fs : gmap string file) : gmap string file :=
  <[_temp_image_two := Picture PNG (gmap_grid rgb_of_bgr image_two)]>
    (<[_temp_image_one := Picture PNG (gmap_grid rgb_of_bgr image_one)]> fs).

(** Whether a path names a file, which is what [os.remove] removes. *)
Definition removable (content : option file) : bool :=
  match content with
  | Some Directory | None => false
  | Some _ => true
  end.

(** Whether [os.remove] succeeds at a path: it names a file and the directory
    lets the entry go. *)
Definition can_remove (w : world) (path : string) : bool :=
  removable (files w !! path) && unlinkable w path.

(** A temporary name that the [finally] will be able to remove: the file can
    be written there or a file is there already, and the entry may be
    removed. *)
Definition disposable (w : world) (path : string) : bool :=
  (can_write w path || removable (files w !! path)) && unlinkable w path.

(** What storage holds once lines 101 and 102 have run, whether the two
    writes succeeded or not. *)
Definition temps_attempted (image_one image_two : grid bgr) (w : world)
    : gmap string file :=
  let fs := if can_write w _temp_image_one
            then <[_temp_image_one := Picture PNG (gmap_grid rgb_of_bgr image_one)]>
                   (files w)
            else files w in
  if can_write w _temp_image_two
  then <[_temp_image_two := Picture PNG (gmap_grid rgb_of_bgr image_two)]> fs
  else fs.

(** Whether the outline drawn for one contour (lines 73 to 75) covers the
    pixel at column [x] of row [y], and whether the outline of any contour of
    a list does. *)
Definition box_covers (contour : list (Z * Z)) (x y : nat) : bool :=
  let '(cx, cy, cw, ch) := boundingRect contour in
  outline_covers (cx, cy) (cx + cw, cy + ch)%Z 2 (Z.of_nat x) (Z.of_nat y).

Definition boxed (contours : list (list (Z * Z))) (x y : nat) : bool :=
  existsb (λ c, box_covers c x y) contours.

(** The colour of the boxes: red, in the channel order of OpenCV. *)
Definition box_color : bgr := (0, 0, 255)%Z.

End Script.

(** ** What a statement may change *)

(** Every run of [m] relates the world it starts in to the world it leaves,
    whether it returns or raises. *)
Definition respects {A} (R : relation world) (m : M A) : Prop :=
  ∀ w, R w (m w).1.

(** Nothing but the files at the paths in [P] has changed. *)
Definition same_outside (P : string → Prop) : relation world := λ w w',
  writable w' = writable w ∧ unlinkable w' = unlinkable w ∧
  stdout w' = stdout w ∧
  ∀ q, ¬ P q → files w' !! q = files w !! q.

(** Every file that is new or has new content is a PNG picture. *)
Definition new_files_png : relation world := λ w w',
  ∀ q f, files w' !! q = Some f →
         files w !! q = Some f ∨ ∃ pixels, f = Picture PNG pixels.

(** The paths that [_save_image_diff] works on. *)
Definition diff_paths (file_path : string) (q : string) : Prop :=
  q = _temp_image_one ∨ q = _temp_image_two ∨ q = file_path.

(** ** The properties of the diff artifact *)

(** A path at which OpenCV decodes nothing: no file, a file that is not a
    picture, or a directory. *)
Definition undecodable (w : world) (path : string) : Prop :=
  files w !! path = None ∨ files w !! path = Some NotAnImage
  ∨ files w !! path = Some Directory.

(** The artifact of two input arrays: a picture at [path] as wide as both
    inputs together and as high as the higher one, showing the first annotated
    array from the origin and the second one right of it. *)
Definition diff_artifact_at (w : world) (path : string) (one two : grid bgr)
    (annotated_one annotated_two : grid bgr) : Prop :=
  ∃ fmt artifact,
    files w !! path = Some (Picture fmt artifact) ∧
    width artifact = width one + width two ∧
    height artifact = height one `max` height two ∧
    (∀ x y, x < width one → y < height one →
            pixel_at artifact x y = rgb_of_bgr <$> pixel_at annotated_one x y) ∧
    (∀ x y, x < width two → y < height two →
            pixel_at artifact (width one + x) y
            = rgb_of_bgr <$> pixel_at annotated_two x y).

(** Both temporary files have been written: each of the two names holds the
    PNG of its array. *)
Definition temps_hold (w : world) (image_one image_two : grid bgr) : Prop :=
  files w !! _temp_image_one
  = Some (Picture PNG (gmap_grid rgb_of_bgr image_one)) ∧
  files w !! _temp_image_two
  = Some (Picture PNG (gmap_grid rgb_of_bgr image_two)).

(** The picture at [path], if there is one, is in the format that the path's
    extension asks for. *)
Definition in_format_of_path (w : world) (path : string) : Prop :=
  ∀ fmt pixels, files w !! path = Some (Picture fmt pixels) →
                format_of_path path = Some fmt.

(** ** A small instance of the kernels and two small pictures

    Used to run the script on concrete inputs.  The scorer gives 1 to equal
    grids and 1/2 to others; its map is 1 where the grids agree and 0 where
    they differ.  Products are exact.  Every dark pixel of the binarised map
    is a contour of its own, and an outline covers the border cells of its
    box. *)
Module Sample.

Definition pixel_map (X Y : grid Z) : grid Q :=
  zip_with (zip_with (λ a b, if decide (a = b) then 1%Q else 0%Q)) X Y.

Definition points_of (g : grid Z) : list (Z * Z) :=
  concat (imap (λ y row,
                  concat (imap (λ x v, if decide (v = 0%Z) then []
                                       else [(Z.of_nat x, Z.of_nat y)]) row)) g).

#[global] Instance vision : Vision := {|
  bgr2gray := λ '(b, g, r), ((b * 1868 + g * 9617 + r * 4899 + 8192) ≫ 14)%Z;
  ssim_kernel := λ X Y,
    Ok (if decide (X = Y) then 1%Q else (1 # 2)%Q, pixel_map X Y);
  float_mul := Qmult;
  threshold_otsu_inv := gmap_grid (λ v, if (v <? 128)%Z then 255%Z else 0%Z);
  findContours := λ g, (λ p, [p]) <$> points_of g;
  outline_covers := λ '(x1, y1) '(x2, y2) _ x y,
    ((x1 <=? x) && (x <=? x2) && (y1 <=? y) && (y <=? y2)
     && ((x =? x1) || (x =? x2) || (y =? y1) || (y =? y2)))%Z
|}.

Definition white : rgb := RGB 255 255 255.
Definition blue_px : rgb := RGB 0 0 255.

(** Two pictures of eight rows and eight columns that differ in the pixel at
    column 3 of row 2. *)
Definition picture_a : grid rgb := replicate 8 (replicate 8 white).
Definition picture_b : grid rgb :=
  <[2 := <[3 := blue_px]> (replicate 8 white)]> picture_a.
(** A picture of another shape: seven rows and nine columns. *)
Definition picture_c : grid rgb := replicate 7 (replicate 9 white).

Definition storage : gmap string file :=
  <["a.png" := Picture PNG picture_a]>
    (<["b.png" := Picture PNG picture_b]>
       (<["c.png" := Picture PNG picture_c]>
          (<["notes.txt" := NotAnImage]> ∅))).

(** Every path may be written. *)
Definition open_world : world := World storage (λ _, true) (λ _, true) [].

(** Every path but the default destination may be written. *)
Definition guarded_world : world :=
  World storage (λ p, negb (String.eqb p "my-diff.png")) (λ _, true) [].

(** A read-only directory whose files are read-only too: nothing can be
    created, overwritten or removed. *)
Definition readonly_world : world :=
  World storage (λ _, false) (λ _, false) [].

(** A writable directory in which the name of the first temporary file
    belongs to a sub-directory. *)
Definition blocked_world : world :=
  World (<[".temp-image-diff-one.png" := Directory]> storage)
        (λ _, true) (λ _, true) [].

(** A writable directory in which the first temporary name belongs to an
    older, read-only picture: it may not be overwritten and may be removed. *)
Definition stale_world : world :=
  World (<[".temp-image-diff-one.png" := Picture PNG picture_c]> storage)
        (λ p, negb (String.eqb p ".temp-image-diff-one.png")) (λ _, true) [].

(** A read-only directory that holds writable files with the two temporary
    names and the default destination: these three may be overwritten, and
    nothing may be created or removed. *)
Definition pinned_world : world :=
  World (<[".temp-image-diff-one.png" := NotAnImage]>
           (<[".temp-image-diff-two.png" := NotAnImage]>
              (<["my-diff.png" := NotAnImage]> storage)))
        (λ p, String.eqb p ".temp-image-diff-one.png"
              || String.eqb p ".temp-image-diff-two.png"
              || String.eqb p "my-diff.png")
        (λ _, false) [].




End Sample.

(** * Properties *)

(** ** Grids *)

Section Grids.
Context {A B : Type}.
Implicit Types (g : grid A) (f : A → B).

Lemma height_gmap_grid f g : height (gmap_grid f g) = height g.
Proof. unfold height, gmap_grid. by rewrite length_fmap. Qed.

Lemma width_gmap_grid f g : width (gmap_grid f g) = width g.
Proof. destruct g as [|row g]; [done|]. unfold width. simpl. by rewrite length_fmap. Qed.

Lemma shape_gmap_grid f g : shape (gmap_grid f g) = shape g.
Proof. unfold shape. by rewrite height_gmap_grid, width_gmap_grid. Qed.

Lemma rectangular_gmap_grid f g : rectangular g → rectangular (gmap_grid f g).
Proof.
  intros (Hh & Hw & Hrows). unfold rectangular.
  rewrite height_gmap_grid, width_gmap_grid. split_and!; [done..|].
  unfold gmap_grid. apply Forall_lookup. intros y row' Hy.
  rewrite list_lookup_fmap in Hy.
  apply fmap_Some in Hy as (row & Hrow & ->).
  rewrite length_fmap. rewrite Forall_lookup in Hrows. by eapply Hrows.
Qed.

Lemma pixel_at_gmap_grid f g x y :
  pixel_at (gmap_grid f g) x y = f <$> pixel_at g x y.
Proof.
  unfold pixel_at, gmap_grid. rewrite list_lookup_fmap.
  destruct (g !! y) as [row|]; simpl; [|done]. by rewrite list_lookup_fmap.
Qed.

(** The row at an index of a rectangular grid has the grid's width. *)
Lemma rectangular_row g y row :
  rectangular g → g !! y = Some row → length row = width g.
Proof.
  intros (_ & _ & Hrows) Hy. rewrite Forall_lookup in Hrows. by eapply Hrows.
Qed.

End Grids.

(** Repainting pixels keeps every row where it is and as long as it was. *)
Lemma imap_rows_shape {A} (paint : nat → nat → A → A) (g : grid A) :
  shape (imap (λ y row, imap (paint y) row) g) = shape g.
Proof.
  unfold shape, height, width. rewrite length_imap. f_equal.
  destruct g as [|row g]; [done|]. simpl. by rewrite length_imap.
Qed.

Lemma imap_rows_rectangular {A} (paint : nat → nat → A → A) (g : grid A) :
  rectangular g → rectangular (imap (λ y row, imap (paint y) row) g).
Proof.
  intros (Hh & Hw & Hrows). pose proof (imap_rows_shape paint g) as Hs.
  unfold shape in Hs. injection Hs as Hh' Hw'.
  unfold rectangular. rewrite Hh', Hw'. split_and!; [done..|].
  apply Forall_lookup. intros y row' Hy.
  rewrite list_lookup_imap in Hy.
  apply fmap_Some in Hy as (row & Hrow & ->).
  rewrite length_imap. rewrite Forall_lookup in Hrows. by eapply Hrows.
Qed.

(** ** Pasting *)

Lemma length_paste_row x (src dst : list rgb) :
  length (paste_row x src dst) = length dst.
Proof.
  unfold paste_row. rewrite !length_app, !length_take, length_drop. lia.
Qed.

Lemma paste_row_inside x (src dst : list rgb) i :
  i < length src → x + i < length dst →
  paste_row x src dst !! (x + i) = src !! i.
Proof.
  intros Hi Hx. unfold paste_row.
  rewrite lookup_app_r by (rewrite length_take; lia).
  rewrite length_take, Nat.min_l by lia.
  replace (x + i - x) with i by lia.
  rewrite lookup_app_l by (rewrite length_take; lia).
  apply lookup_take_lt. lia.
Qed.

Lemma paste_row_left x (src dst : list rgb) i :
  i < x → paste_row x src dst !! i = dst !! i.
Proof.
  intros Hi. unfold paste_row.
  destruct (decide (i < length dst)) as [Hlt|Hge].
  - rewrite lookup_app_l by (rewrite length_take; lia). by apply lookup_take_lt.
  - rewrite (lookup_ge_None_2 dst) by lia.
    apply lookup_ge_None_2.
    rewrite !length_app, !length_take, length_drop. lia.
Qed.

Lemma length_paste (canvas image : grid rgb) x :
  length (paste canvas image x) = length canvas.
Proof.
  revert image. induction canvas as [|crow canvas IH]; intros [|irow image];
    simpl; auto.
Qed.

Lemma paste_lookup (canvas image : grid rgb) x y :
  paste canvas image x !! y =
  match image !! y with
  | Some irow => paste_row x irow <$> canvas !! y
  | None => canvas !! y
  end.
Proof.
  revert image y. induction canvas as [|crow canvas IH]; intros [|irow image] y;
    try done.
  - simpl. rewrite lookup_nil. by destruct (_ !! _).
  - destruct y as [|y]; simpl; [done|]. apply IH.
Qed.

Lemma paste_row_lengths (canvas image : grid rgb) x n :
  Forall (λ row, length row = n) canvas →
  Forall (λ row, length row = n) (paste canvas image x).
Proof.
  rewrite !Forall_lookup. intros Hc y row Hy.
  rewrite paste_lookup in Hy.
  destruct (image !! y) as [irow|]; [|by eapply Hc].
  destruct (canvas !! y) as [crow|] eqn:Hcrow; simplify_eq/=.
  rewrite length_paste_row. by eapply Hc.
Qed.

Lemma width_paste (canvas image : grid rgb) x :
  width (paste canvas image x) = width canvas.
Proof.
  unfold width. destruct canvas as [|crow canvas]; destruct image as [|irow image];
    simpl; try done. apply length_paste_row.
Qed.

(** Inside the pasted box the canvas shows the image. *)
Lemma pixel_at_paste_inside (canvas image : grid rgb) x0 x y n :
  rectangular image → Forall (λ row, length row = n) canvas →
  y < height image → y < height canvas →
  x < width image → x0 + x < n →
  pixel_at (paste canvas image x0) (x0 + x) y = pixel_at image x y.
Proof.
  intros Hrect Hc Hyi Hyc Hx Hn. unfold pixel_at. rewrite paste_lookup.
  destruct (lookup_lt_is_Some_2 image y Hyi) as [irow Hirow].
  destruct (lookup_lt_is_Some_2 canvas y Hyc) as [crow Hcrow].
  rewrite Hirow, Hcrow. simpl.
  pose proof (rectangular_row _ _ _ Hrect Hirow) as Hlen.
  rewrite Forall_lookup in Hc. pose proof (Hc _ _ Hcrow) as Hclen.
  apply paste_row_inside; lia.
Qed.

(** Left of the pasted box the canvas is as before. *)
Lemma pixel_at_paste_left (canvas image : grid rgb) x0 x y :
  x < x0 → pixel_at (paste canvas image x0) x y = pixel_at canvas x y.
Proof.
  intros Hx. unfold pixel_at. rewrite paste_lookup.
  destruct (image !! y) as [irow|]; [|done].
  destruct (canvas !! y) as [crow|]; simpl; [|done].
  by apply paste_row_left.
Qed.

Lemma height_Image_new w h : height (Image_new w h) = h.
Proof. unfold height, Image_new. apply length_replicate. Qed.

Lemma Image_new_row_lengths w h :
  Forall (λ row : list rgb, length row = w) (Image_new w h).
Proof.
  apply Forall_lookup. intros y row Hy. unfold Image_new in Hy.
  apply lookup_replicate in Hy as [-> _]. apply length_replicate.
Qed.

Lemma width_Image_new w h : 0 < h → width (Image_new w h) = w.
Proof.
  intros Hh. unfold width, Image_new. destruct h; [lia|]. simpl.
  apply length_replicate.
Qed.

(** ** The composed canvas *)

Lemma side_by_side_pair (one two : grid rgb) :
  side_by_side [one; two] =
  paste (paste (Image_new (width one + width two) (height one `max` height two))
               one 0)
        two (width one).
Proof.
  unfold side_by_side. simpl. unfold id.
  by rewrite Nat.add_0_r, Nat.max_0_r.
Qed.

Section Side_by_side.
Variables one two : grid rgb.
Hypothesis rect_one : rectangular one.
Hypothesis rect_two : rectangular two.

Lemma side_by_side_height :
  height (side_by_side [one; two]) = height one `max` height two.
Proof.
  rewrite side_by_side_pair. unfold height at 1.
  rewrite !length_paste. apply height_Image_new.
Qed.

Lemma side_by_side_width :
  width (side_by_side [one; two]) = width one + width two.
Proof.
  rewrite side_by_side_pair, !width_paste. apply width_Image_new.
  destruct rect_one as (Hh & _). lia.
Qed.

Lemma side_by_side_first x y :
  x < width one → y < height one →
  pixel_at (side_by_side [one; two]) x y = pixel_at one x y.
Proof.
  intros Hx Hy. rewrite side_by_side_pair.
  rewrite pixel_at_paste_left by lia.
  apply (pixel_at_paste_inside _ one 0 x y (width one + width two));
    [done|apply Image_new_row_lengths|done|rewrite height_Image_new; lia|done|lia].
Qed.

Lemma side_by_side_second x y :
  x < width two → y < height two →
  pixel_at (side_by_side [one; two]) (width one + x) y = pixel_at two x y.
Proof.
  intros Hx Hy. rewrite side_by_side_pair.
  apply (pixel_at_paste_inside _ two (width one) x y (width one + width two));
    [done|apply paste_row_lengths, Image_new_row_lengths|done| |done|lia].
  pose proof (height_Image_new (width one + width two)
                (height one `max` height two)) as Hnew.
  unfold height in *. rewrite length_paste. lia.
Qed.

End Side_by_side.

(** ** Running the statements *)

Lemma Qltb_lt (x y : Q) : Qltb x y = true ↔ (x < y)%Q.
Proof.
  unfold Qltb. rewrite negb_true_iff, <- not_true_iff_false, Qle_bool_iff.
  split; [apply Qnot_le_lt | apply Qlt_not_le].
Qed.

Lemma Qltb_ge (x y : Q) : Qltb x y = false ↔ (y <= x)%Q.
Proof. unfold Qltb. by rewrite negb_false_iff, Qle_bool_iff. Qed.

Lemma temp_names_differ : _temp_image_one ≠ _temp_image_two.
Proof. discriminate. Qed.

Lemma format_of_temp_one : format_of_path _temp_image_one = Some PNG.
Proof. reflexivity. Qed.

Lemma format_of_temp_two : format_of_path _temp_image_two = Some PNG.
Proof. reflexivity. Qed.

Lemma run_bind {A B} (m : M A) (f : A → M B) (w : world) :
  (m ≫= f) w =
  match m w with
  | (w', Ok a) => f a w'
  | (w', Raise e) => (w', Raise e)
  end.
Proof. reflexivity. Qed.

Lemma run_ret {A} (a : A) (w : world) : (mret a : M A) w = (w, Ok a).
Proof. reflexivity. Qed.

Section Run.
Context `{Vision}.

Lemma rectangle_shape img pt1 pt2 color thickness :
  shape (rectangle img pt1 pt2 color thickness) = shape img.
Proof. unfold rectangle. apply imap_rows_shape. Qed.

Lemma rectangle_rectangular img pt1 pt2 color thickness :
  rectangular img → rectangular (rectangle img pt1 pt2 color thickness).
Proof. unfold rectangle. apply imap_rows_rectangular. Qed.

(** The boxes leave both arrays their shapes. *)
Lemma draw_boxes_shape contours one two :
  shape (draw_boxes contours one two).1 = shape one ∧
  shape (draw_boxes contours one two).2 = shape two.
Proof.
  unfold draw_boxes. revert one two.
  induction contours as [|c contours IH]; intros one two; [done|].
  simpl. destruct (boundingRect c) as [[[x y] bw] bh].
  destruct (IH (rectangle one (x, y) (x + bw, y + bh)%Z (0, 0, 255)%Z 2)
               (rectangle two (x, y) (x + bw, y + bh)%Z (0, 0, 255)%Z 2))
    as [IH1 IH2].
  rewrite IH1, IH2. by rewrite !rectangle_shape.
Qed.

Lemma draw_boxes_rectangular contours one two :
  rectangular one → rectangular two →
  rectangular (draw_boxes contours one two).1 ∧
  rectangular (draw_boxes contours one two).2.
Proof.
  unfold draw_boxes. revert one two.
  induction contours as [|c contours IH]; intros one two Hone Htwo; [done|].
  simpl. destruct (boundingRect c) as [[[x y] bw] bh].
  apply IH; by apply rectangle_rectangular.
Qed.

(** *** The three phases of [_save_image_diff] *)

Lemma can_write_elsewhere w path q f :
  path ≠ q →
  can_write (set_files w (<[path := f]> (files w))) q = can_write w q.
Proof. intros Hne. unfold can_write. simpl. by rewrite lookup_insert_ne. Qed.

(** Lines 99 to 102 never raise. *)
Lemma write_temp_images_run image_one image_two w :
  write_temp_images image_one image_two w
  = (set_files w (temps_attempted image_one image_two w), Ok ()).
Proof.
  unfold write_temp_images, temps_attempted.
  rewrite run_bind. unfold imwrite at 1. rewrite format_of_temp_one.
  destruct (can_write w _temp_image_one) eqn:Hone.
  - rewrite run_bind. unfold imwrite at 1. rewrite format_of_temp_two.
    rewrite can_write_elsewhere by apply temp_names_differ.
    by destruct (can_write w _temp_image_two); destruct w.
  - rewrite run_bind. unfold imwrite at 1. rewrite format_of_temp_two.
    by destruct (can_write w _temp_image_two); destruct w.
Qed.

Lemma write_temp_images_written image_one image_two w :
  can_write w _temp_image_one = true →
  can_write w _temp_image_two = true →
  write_temp_images image_one image_two w =
  (set_files w (temps_written image_one image_two (files w)), Ok ()).
Proof.
  intros Hone Htwo. rewrite write_temp_images_run.
  unfold temps_attempted. by rewrite Hone, Htwo.
Qed.

Lemma open_temps image_one image_two w fs :
  files w = temps_written image_one image_two fs →
  mapM Image_open [_temp_image_one; _temp_image_two] w =
  (w, Ok [gmap_grid rgb_of_bgr image_one; gmap_grid rgb_of_bgr image_two]).
Proof.
  intros Hfs. unfold mapM. rewrite run_bind. unfold Image_open at 1.
  rewrite Hfs. unfold temps_written at 1.
  rewrite lookup_insert_ne by (symmetry; apply temp_names_differ).
  rewrite lookup_insert_eq. rewrite run_bind, run_bind.
  unfold Image_open at 1. rewrite Hfs. unfold temps_written at 1.
  rewrite lookup_insert_eq. done.
Qed.

(** The guarded block (lines 104 to 119) never raises.  It either leaves
    storage as it is, or it has found a picture at each temporary name and has
    saved their composition at the destination as a PNG. *)
Lemma guarded_compose_run file_path w :
  ∃ fs, try_except_pass (compose_diff file_path) w = (set_files w fs, Ok ()) ∧
        (fs = files w ∨
         ∃ fmt1 one fmt2 two,
           files w !! _temp_image_one = Some (Picture fmt1 one) ∧
           files w !! _temp_image_two = Some (Picture fmt2 two) ∧
           can_write w file_path = true ∧
           fs = <[file_path := Picture PNG (side_by_side [one; two])]> (files w)).
Proof.
  assert (Hsame : (w, Ok ()) = (set_files w (files w), Ok ())) by by destruct w.
  unfold try_except_pass, compose_diff. rewrite run_bind.
  unfold mapM. rewrite run_bind. unfold Image_open at 1.
  destruct (files w !! _temp_image_one) as [[fmt1 one| |]|] eqn:Hone;
    try (exists (files w); split; [done|by left]).
  rewrite run_bind, run_bind. unfold Image_open at 1.
  destruct (files w !! _temp_image_two) as [[fmt2 two| |]|] eqn:Htwo;
    try (exists (files w); split; [done|by left]).
  unfold mbind, M_bind, mret, M_ret, Image_save. cbv beta iota.
  destruct (can_write w file_path) eqn:Hwrite; cbv beta iota;
    [|exists (files w); split; [done|by left]].
  eexists. split; [done|]. right. by eexists _, _, _, _.
Qed.

(** With a picture at each temporary name and a destination that can be
    written, the guarded block saves the composition of the two pictures. *)
Lemma guarded_compose_pictures file_path w fmt1 one fmt2 two :
  files w !! _temp_image_one = Some (Picture fmt1 one) →
  files w !! _temp_image_two = Some (Picture fmt2 two) →
  can_write w file_path = true →
  try_except_pass (compose_diff file_path) w
  = (set_files w (<[file_path := Picture PNG (side_by_side [one; two])]> (files w)),
     Ok ()).
Proof.
  intros Hone Htwo Hwrite. unfold try_except_pass, compose_diff.
  rewrite run_bind. unfold mapM. rewrite run_bind. unfold Image_open at 1.
  rewrite Hone. rewrite run_bind, run_bind. unfold Image_open at 1. rewrite Htwo.
  unfold mbind, M_bind, mret, M_ret, Image_save. cbv beta iota.
  by rewrite Hwrite.
Qed.

(** The [finally] (lines 121 to 123) returns exactly when both temporary
    names can be removed, and then both are gone; otherwise the error is that
    of the [remove] that failed, and what that [remove] found stays. *)
Lemma remove_temp_images_run w :
  match can_remove w _temp_image_one, can_remove w _temp_image_two with
  | true, true =>
      remove_temp_images w
      = (set_files w (delete _temp_image_two (delete _temp_image_one (files w))),
         Ok ())
  | true, false =>
      ∃ e, remove_temp_images w
           = (set_files w (delete _temp_image_one (files w)), Raise e) ∧
           (e = FileNotFoundError _temp_image_two ∨ e = OSError _temp_image_two)
  | false, _ =>
      ∃ e, remove_temp_images w = (w, Raise e) ∧
           (e = FileNotFoundError _temp_image_one ∨ e = OSError _temp_image_one)
  end.
Proof.
  pose proof temp_names_differ as Hne. unfold can_remove.
  destruct (files w !! _temp_image_one) as [[fmt1 one| |]|] eqn:Hone;
    destruct (unlinkable w _temp_image_one) eqn:Hperm1;
    destruct (files w !! _temp_image_two) as [[fmt2 two| |]|] eqn:Htwo;
    destruct (unlinkable w _temp_image_two) eqn:Hperm2;
    unfold removable; cbv beta iota; simpl andb; try eexists;
    unfold remove_temp_images, remove, mbind, M_bind; cbv beta;
    rewrite Hone, ?Hperm1; cbv beta iota; simpl files; simpl unlinkable;
    rewrite ?lookup_delete_ne, ?Htwo, ?Hperm2 by done; eauto.
Qed.

(** Two pictures that may be removed are removed one after the other. *)
Lemma remove_temp_pictures w (fs : gmap string file) :
  (∃ fmt pixels, fs !! _temp_image_one = Some (Picture fmt pixels)) →
  (∃ fmt pixels, fs !! _temp_image_two = Some (Picture fmt pixels)) →
  unlinkable w _temp_image_one = true →
  unlinkable w _temp_image_two = true →
  remove_temp_images (set_files w fs)
  = (set_files w (delete _temp_image_two (delete _temp_image_one fs)), Ok ()).
Proof.
  intros (fmt1 & px1 & Hone) (fmt2 & px2 & Htwo) Hperm1 Hperm2.
  pose proof (remove_temp_images_run (set_files w fs)) as Hrun.
  unfold can_remove in Hrun. simpl in Hrun.
  by rewrite Hone, Htwo, Hperm1, Hperm2 in Hrun.
Qed.

(** The world in which the [finally] of [_save_image_diff] starts. *)
Lemma save_image_diff_phases image_one image_two file_path w :
  _save_image_diff image_one image_two file_path w
  = remove_temp_images
      (try_except_pass (compose_diff file_path)
         (set_files w (temps_attempted image_one image_two w))).1.
Proof.
  unfold _save_image_diff. rewrite run_bind, write_temp_images_run.
  unfold try_finally.
  destruct (guarded_compose_run file_path
              (set_files w (temps_attempted image_one image_two w)))
    as (fs & -> & _). simpl fst.
  by destruct (remove_temp_images _) as [w' [[]|e]].
Qed.

(** With both temporary files written, the [finally] starts with the two
    pictures on storage and, where the destination can be written, their
    composition at the destination. *)
Lemma save_image_diff_composed image_one image_two file_path w :
  can_write w _temp_image_one = true →
  can_write w _temp_image_two = true →
  let one := gmap_grid rgb_of_bgr image_one in
  let two := gmap_grid rgb_of_bgr image_two in
  let fs := temps_written image_one image_two (files w) in
  _save_image_diff image_one image_two file_path w =
  remove_temp_images
    (set_files w
       (if can_write (set_files w fs) file_path
        then <[file_path := Picture PNG (side_by_side [one; two])]> fs
        else fs)).
Proof.
  intros Hone Htwo one two fs. rewrite save_image_diff_phases.
  unfold temps_attempted. rewrite Hone, Htwo. fold (temps_written image_one image_two (files w)). fold fs.
  assert (Hfs1 : fs !! _temp_image_one = Some (Picture PNG one)).
  { unfold fs, temps_written.
    rewrite lookup_insert_ne by (symmetry; apply temp_names_differ).
    apply lookup_insert_eq. }
  assert (Hfs2 : fs !! _temp_image_two = Some (Picture PNG two)).
  { unfold fs, temps_written. apply lookup_insert_eq. }
  destruct (can_write (set_files w fs) file_path) eqn:Hwrite.
  - by erewrite guarded_compose_pictures by done.
  - destruct (guarded_compose_run file_path (set_files w fs))
      as (fs' & -> & [->|(? & ? & ? & ? & _ & _ & Hyes & _)]); [done|].
    congruence.
Qed.

Lemma save_image_diff_written image_one image_two file_path w :
  can_write w _temp_image_one = true →
  can_write w _temp_image_two = true →
  unlinkable w _temp_image_one = true →
  unlinkable w _temp_image_two = true →
  let one := gmap_grid rgb_of_bgr image_one in
  let two := gmap_grid rgb_of_bgr image_two in
  let fs := temps_written image_one image_two (files w) in
  _save_image_diff image_one image_two file_path w =
  (set_files w
     (delete _temp_image_two
        (delete _temp_image_one
           (if can_write (set_files w fs) file_path
            then <[file_path := Picture PNG (side_by_side [one; two])]> fs
            else fs))),
   Ok ()).
Proof.
  intros Hone Htwo Hperm1 Hperm2 one two fs.
  rewrite save_image_diff_composed by done. fold one two fs.
  assert (Hfs1 : fs !! _temp_image_one = Some (Picture PNG one)).
  { unfold fs, temps_written.
    rewrite lookup_insert_ne by (symmetry; apply temp_names_differ).
    apply lookup_insert_eq. }
  assert (Hfs2 : fs !! _temp_image_two = Some (Picture PNG two)).
  { unfold fs, temps_written. apply lookup_insert_eq. }
  apply remove_temp_pictures; [| |done..].
  - destruct (can_write (set_files w fs) file_path); [|by eexists _, _].
    rewrite lookup_insert. case_decide; [by eexists _, _|].
    rewrite Hfs1. by eexists _, _.
  - destruct (can_write (set_files w fs) file_path); [|by eexists _, _].
    rewrite lookup_insert. case_decide; [by eexists _, _|].
    rewrite Hfs2. by eexists _, _.
Qed.

(** With both temporary files written and removable, the call returns
    normally and neither temporary name is left on storage. *)
Lemma save_image_diff_cleans_up image_one image_two file_path w :
  can_write w _temp_image_one = true →
  can_write w _temp_image_two = true →
  unlinkable w _temp_image_one = true →
  unlinkable w _temp_image_two = true →
  ∃ w', _save_image_diff image_one image_two file_path w = (w', Ok ()) ∧
        files w' !! _temp_image_one = None ∧
        files w' !! _temp_image_two = None.
Proof.
  intros Hone Htwo Hperm1 Hperm2. rewrite save_image_diff_written by done.
  eexists. split; [done|]. unfold set_files. simpl files. split.
  - rewrite lookup_delete_ne by (symmetry; apply temp_names_differ).
    apply lookup_delete_eq.
  - apply lookup_delete_eq.
Qed.

(** *** [compare_images] up to the threshold test *)

Lemma compare_images_unreadable image_one image_two ssim_threshold save_diff_to w :
  decode (files w !! image_one) = None ∨ decode (files w !! image_two) = None →
  compare_images image_one image_two ssim_threshold save_diff_to w
  = (w, Raise Cv2Error).
Proof.
  intros Hnone. unfold compare_images.
  rewrite run_bind. unfold imread at 1.
  rewrite run_bind. unfold imread at 1.
  destruct (decode (files w !! image_one)) as [one|]; [|done].
  destruct Hnone as [Hnone|Hnone]; [done|]. by rewrite Hnone.
Qed.

Lemma compare_images_unscored image_one image_two ssim_threshold save_diff_to w
    one two e :
  decode (files w !! image_one) = Some one →
  decode (files w !! image_two) = Some two →
  compare_ssim (gray one) (gray two) = Raise e →
  compare_images image_one image_two ssim_threshold save_diff_to w = (w, Raise e).
Proof.
  intros Hone Htwo Hssim. unfold compare_images.
  rewrite run_bind. unfold imread at 1.
  rewrite run_bind. unfold imread at 1.
  rewrite Hone, Htwo. simpl cvtColor. rewrite run_bind, run_ret, run_bind, run_ret.
  rewrite run_bind. unfold lift at 1. fold (gray one) (gray two).
  by rewrite Hssim.
Qed.

Lemma compare_images_scored image_one image_two ssim_threshold save_diff_to w
    one two score diff :
  decode (files w !! image_one) = Some one →
  decode (files w !! image_two) = Some two →
  compare_ssim (gray one) (gray two) = Ok (score, diff) →
  compare_images image_one image_two ssim_threshold save_diff_to w =
  if Qltb score ssim_threshold then
    match save_diff_to with
    | Some file_path =>
        match _save_image_diff (annotated diff one two).1 (annotated diff one two).2
                file_path (printed w score) with
        | (w', Ok _) => (w', Ok score)
        | (w', Raise e) => (w', Raise e)
        end
    | None => (printed w score, Ok score)
    end
  else (printed w score, Ok score).
Proof.
  intros Hone Htwo Hssim. unfold compare_images.
  rewrite run_bind. unfold imread at 1.
  rewrite run_bind. unfold imread at 1.
  rewrite Hone, Htwo. simpl cvtColor. rewrite run_bind, run_ret, run_bind, run_ret.
  rewrite run_bind. unfold lift at 1. fold (gray one) (gray two).
  rewrite Hssim. rewrite run_bind. unfold print at 1. fold (printed w score).
  rewrite run_bind.
  destruct (Qltb score ssim_threshold); [|done].
  fold (annotated diff one two).
  destruct (annotated diff one two) as [array_one array_two]. simpl fst. simpl snd.
  destruct save_diff_to as [file_path|]; [|done].
  by destruct (_save_image_diff array_one array_two file_path (printed w score))
    as [w' [[]|e]].
Qed.

End Run.

(** ** What the statements may change *)

#[global] Instance same_outside_preorder P : PreOrder (same_outside P).
Proof.
  split.
  - by intros w.
  - intros w1 w2 w3 (Hw12 & Hu12 & Hs12 & Hf12) (Hw23 & Hu23 & Hs23 & Hf23).
    split_and!; [congruence..|]. intros q Hq.
    by rewrite Hf23, Hf12.
Qed.

#[global] Instance new_files_png_preorder : PreOrder new_files_png.
Proof.
  split.
  - intros w q f Hf. by left.
  - intros w1 w2 w3 H12 H23 q f Hf.
    destruct (H23 q f Hf) as [Hold|Hpng]; [by apply H12|by right].
Qed.

Section Respects.
Context (R : relation world) `{!PreOrder R}.

Lemma respects_ret {A} (a : A) : respects R (mret a : M A).
Proof. intros w. simpl. reflexivity. Qed.

Lemma respects_raise {A} e : respects R (raise e : M A).
Proof. intros w. simpl. reflexivity. Qed.

Lemma respects_bind {A B} (m : M A) (f : A → M B) :
  respects R m → (∀ a, respects R (f a)) → respects R (m ≫= f).
Proof.
  intros Hm Hf w. rewrite run_bind. specialize (Hm w).
  destruct (m w) as [w' [a|e]]; simpl in *; [|done].
  etrans; [exact Hm|apply Hf].
Qed.

Lemma respects_try_except_pass body :
  respects R body → respects R (try_except_pass body).
Proof.
  intros Hbody w. unfold try_except_pass. specialize (Hbody w).
  by destruct (body w) as [w' [[]|e]].
Qed.

Lemma respects_try_finally {A} (body : M A) cleanup :
  respects R body → respects R cleanup → respects R (try_finally body cleanup).
Proof.
  intros Hbody Hcleanup w. unfold try_finally. specialize (Hbody w).
  destruct (body w) as [w' r]. specialize (Hcleanup w').
  destruct (cleanup w') as [w'' [[]|e]]; simpl in *; by etrans.
Qed.

Lemma respects_mapM {A B} (f : A → M B) (l : list A) :
  (∀ a, respects R (f a)) → respects R (mapM f l).
Proof.
  intros Hf. induction l as [|a l IH]; simpl.
  - apply respects_ret.
  - apply respects_bind; [apply Hf|]. intros b.
    apply respects_bind; [apply IH|]. intros k. apply respects_ret.
Qed.

End Respects.

Lemma same_outside_weaken (P Q : string → Prop) w w' :
  (∀ q, P q → Q q) → same_outside P w w' → same_outside Q w w'.
Proof.
  intros HPQ (Hw & Hu & Hs & Hf). split_and!; [done..|].
  intros q Hq. apply Hf. auto.
Qed.

Section Frames.
Context `{Vision}.

Lemma imwrite_same_outside path img : respects (same_outside (eq path)) (imwrite path img).
Proof.
  intros w. unfold imwrite. destruct (format_of_path path); [|done].
  destruct (can_write w path); [|done]. split_and!; [done..|].
  intros q Hq. simpl. by rewrite lookup_insert_ne.
Qed.

Lemma Image_open_same_outside P path : respects (same_outside P) (Image_open path).
Proof. intros w. unfold Image_open. by destruct (files w !! path) as [[]|]. Qed.

Lemma Image_save_same_outside image path fmt :
  respects (same_outside (eq path)) (Image_save image path fmt).
Proof.
  intros w. unfold Image_save. destruct (can_write w path); [|done].
  split_and!; [done..|]. intros q Hq. simpl. by rewrite lookup_insert_ne.
Qed.

Lemma remove_same_outside path : respects (same_outside (eq path)) (remove path).
Proof.
  intros w. unfold remove.
  destruct (files w !! path) as [[]|]; destruct (unlinkable w path);
    try done;
    (split_and!; [done..|]; intros q Hq; simpl; by rewrite lookup_delete_ne).
Qed.

Lemma write_temp_images_same_outside image_one image_two file_path :
  respects (same_outside (diff_paths file_path))
           (write_temp_images image_one image_two).
Proof.
  unfold write_temp_images.
  apply respects_bind; [apply _| |].
  { intros w. eapply same_outside_weaken; [|apply imwrite_same_outside].
    intros q <-. by left. }
  intros _. apply respects_bind; [apply _| |].
  { intros w. eapply same_outside_weaken; [|apply imwrite_same_outside].
    intros q <-. right. by left. }
  intros _. by apply respects_ret, _.
Qed.

Lemma save_image_diff_same_outside image_one image_two file_path :
  respects (same_outside (diff_paths file_path))
           (_save_image_diff image_one image_two file_path).
Proof.
  unfold _save_image_diff.
  apply respects_bind; [apply _|apply write_temp_images_same_outside|].
  intros _. apply respects_try_finally; [apply _| |].
  - apply respects_try_except_pass. unfold compose_diff.
    apply respects_bind; [apply _| |].
    + apply respects_mapM; [apply _|]. intros path. apply Image_open_same_outside.
    + intros images w. eapply same_outside_weaken; [|apply Image_save_same_outside].
      intros q <-. right. by right.
  - unfold remove_temp_images. apply respects_bind; [apply _| |].
    + intros w. eapply same_outside_weaken; [|apply remove_same_outside].
      intros q <-. by left.
    + intros _ w. eapply same_outside_weaken; [|apply remove_same_outside].
      intros q <-. right. by left.
Qed.

Lemma save_image_diff_new_files_png image_one image_two file_path :
  respects new_files_png (_save_image_diff image_one image_two file_path).
Proof.
  assert (Hremove : ∀ path, respects new_files_png (remove path)).
  { intros path w. unfold remove.
    destruct (files w !! path) as [[]|] eqn:Hpath;
      destruct (unlinkable w path); intros q f Hf; left;
      simpl in Hf; try done; apply lookup_delete_Some in Hf; by destruct Hf. }
  assert (Hwrite : ∀ path img, format_of_path path = Some PNG →
                     respects new_files_png (imwrite path img)).
  { intros path img Hfmt w. unfold imwrite. rewrite Hfmt.
    destruct (can_write w path); [|by intros q f Hf; left].
    intros q f Hf. simpl in Hf.
    apply lookup_insert_Some in Hf as [[_ <-]|[_ Hf]]; [right; by eexists|by left]. }
  unfold _save_image_diff, write_temp_images.
  apply respects_bind; [apply _| |].
  { apply respects_bind; [apply _|by apply Hwrite|]. intros _.
    apply respects_bind; [apply _|by apply Hwrite|]. intros _.
    by apply respects_ret, _. }
  intros _. apply respects_try_finally; [apply _| |].
  - apply respects_try_except_pass. unfold compose_diff.
    apply respects_bind; [apply _| |].
    + apply respects_mapM; [apply _|]. intros path w. unfold Image_open.
      destruct (files w !! path) as [[]|]; by intros q f Hf; left.
    + intros images w. unfold Image_save.
      destruct (can_write w file_path); [|by intros q f Hf; left].
      intros q f Hf. simpl in Hf.
      apply lookup_insert_Some in Hf as [[_ <-]|[_ Hf]]; [right; by eexists|by left].
  - unfold remove_temp_images. apply respects_bind; [apply _|apply Hremove|].
    intros _. apply Hremove.
Qed.

End Frames.

(** ** The comparison as a whole *)

Section Comparison.
Context `{Vision}.

Lemma decode_None w path : undecodable w path → decode (files w !! path) = None.
Proof. by intros [-> | [-> | ->]]. Qed.

Lemma save_image_diff_stdout image_one image_two file_path w :
  stdout (_save_image_diff image_one image_two file_path w).1 = stdout w.
Proof.
  by destruct (save_image_diff_same_outside image_one image_two file_path w)
    as (_ & _ & Hstdout & _).
Qed.

(** Whatever its arguments, a comparison changes storage only through
    [_save_image_diff]. *)
Lemma compare_images_new_files_png image_one image_two ssim_threshold save_diff_to :
  respects new_files_png
           (compare_images image_one image_two ssim_threshold save_diff_to).
Proof.
  intros w.
  destruct (decode (files w !! image_one)) as [one|] eqn:Hone;
    [|rewrite compare_images_unreadable by auto; reflexivity].
  destruct (decode (files w !! image_two)) as [two|] eqn:Htwo;
    [|rewrite compare_images_unreadable by auto; reflexivity].
  destruct (compare_ssim (gray one) (gray two)) as [[score diff]|e] eqn:Hssim;
    [|erewrite compare_images_unscored by done; reflexivity].
  erewrite compare_images_scored by done.
  destruct (Qltb score ssim_threshold); [|by intros q f Hf; left].
  destruct save_diff_to as [file_path|]; [|by intros q f Hf; left].
  pose proof (save_image_diff_new_files_png (annotated diff one two).1
                (annotated diff one two).2 file_path (printed w score)) as Hpng.
  by destruct (_save_image_diff _ _ file_path (printed w score)) as [w' [[]|e]].
Qed.

End Comparison.

(** ** How [_save_image_diff] ends *)

Section Outcomes.
Context `{Vision}.

(** After lines 99 to 102 a temporary name can be removed exactly when it was
    disposable before. *)
Lemma temps_attempted_can_remove image_one image_two w :
  can_remove (set_files w (temps_attempted image_one image_two w)) _temp_image_one
  = disposable w _temp_image_one ∧
  can_remove (set_files w (temps_attempted image_one image_two w)) _temp_image_two
  = disposable w _temp_image_two.
Proof.
  pose proof temp_names_differ as Hne.
  unfold can_remove, temps_attempted, disposable. simpl.
  destruct (can_write w _temp_image_one), (can_write w _temp_image_two);
    by simplify_map_eq.
Qed.

(** The guarded block keeps what can be removed at the temporary names. *)
Lemma guarded_compose_can_remove file_path w path :
  path = _temp_image_one ∨ path = _temp_image_two →
  can_remove (try_except_pass (compose_diff file_path) w).1 path
  = can_remove w path.
Proof.
  intros Hpath. unfold can_remove.
  destruct (guarded_compose_run file_path w) as (fs & -> & Hfs). simpl.
  destruct Hfs as [->|(fmt1 & one & fmt2 & two & Hone & Htwo & Hwrite & ->)];
    [done|].
  destruct (decide (path = file_path)) as [->|Hne];
    [|by rewrite lookup_insert_ne].
  rewrite lookup_insert_eq. by destruct Hpath as [-> | ->]; simplify_map_eq.
Qed.

(** What can be removed at a temporary name when the [finally] starts. *)
Lemma save_image_diff_can_remove image_one image_two file_path w path :
  path = _temp_image_one ∨ path = _temp_image_two →
  can_remove (try_except_pass (compose_diff file_path)
                (set_files w (temps_attempted image_one image_two w))).1 path
  = disposable w path.
Proof.
  intros Hpath. rewrite guarded_compose_can_remove by done.
  destruct (temps_attempted_can_remove image_one image_two w) as [Hone Htwo].
  by destruct Hpath as [-> | ->].
Qed.

(** An exception that leaves [_save_image_diff] comes from a [remove]. *)
Lemma save_image_diff_raise_inv image_one image_two file_path w e :
  (_save_image_diff image_one image_two file_path w).2 = Raise e →
  e = FileNotFoundError _temp_image_one ∨ e = OSError _temp_image_one ∨
  e = FileNotFoundError _temp_image_two ∨ e = OSError _temp_image_two.
Proof.
  rewrite save_image_diff_phases.
  pose proof (remove_temp_images_run
                (try_except_pass (compose_diff file_path)
                   (set_files w (temps_attempted image_one image_two w))).1)
    as Hrun.
  destruct (can_remove _ _temp_image_one); [destruct (can_remove _ _temp_image_two)|].
  - rewrite Hrun. discriminate.
  - destruct Hrun as (e' & -> & He'). simpl. intros [= <-]. tauto.
  - destruct Hrun as (e' & -> & He'). simpl. intros [= <-]. tauto.
Qed.

(** The [finally] changes nothing but the two temporary names. *)
Lemma remove_temp_images_elsewhere w q :
  q ≠ _temp_image_one → q ≠ _temp_image_two →
  files (remove_temp_images w).1 !! q = files w !! q.
Proof.
  intros Hq1 Hq2.
  assert (respects (same_outside (λ p, p = _temp_image_one ∨ p = _temp_image_two))
                   remove_temp_images) as Hframe.
  { unfold remove_temp_images. apply respects_bind; [apply _| |].
    - intros w0. eapply same_outside_weaken; [|apply remove_same_outside].
      intros p <-. by left.
    - intros _ w0. eapply same_outside_weaken; [|apply remove_same_outside].
      intros p <-. by right. }
  destruct (Hframe w) as (_ & _ & _ & Hfiles). apply Hfiles. by intros [?|?].
Qed.

(** With both temporary files written, what the destination holds after the
    call, whether the [finally] then manages to remove them or not. *)
Lemma save_image_diff_destination image_one image_two file_path w :
  can_write w _temp_image_one = true →
  can_write w _temp_image_two = true →
  file_path ≠ _temp_image_one → file_path ≠ _temp_image_two →
  files (_save_image_diff image_one image_two file_path w).1 !! file_path
  = if can_write w file_path
    then Some (Picture PNG (side_by_side [gmap_grid rgb_of_bgr image_one;
                                          gmap_grid rgb_of_bgr image_two]))
    else files w !! file_path.
Proof.
  intros Hone Htwo Hne1 Hne2. rewrite save_image_diff_composed by done.
  rewrite remove_temp_images_elsewhere by done. simpl files.
  assert (can_write (set_files w (temps_written image_one image_two (files w)))
                    file_path = can_write w file_path) as ->.
  { unfold can_write, temps_written. simpl. by rewrite !lookup_insert_ne. }
  destruct (can_write w file_path); [apply lookup_insert_eq|].
  unfold temps_written. by rewrite !lookup_insert_ne.
Qed.

(** The rendering branch of [compare_images] changes no path but the two
    temporary names and the destination, and no permission. *)
Lemma compare_images_same_outside image_one image_two ssim_threshold save_diff_to w :
  writable (compare_images image_one image_two ssim_threshold save_diff_to w).1
  = writable w ∧
  ∀ q, q ≠ _temp_image_one → q ≠ _temp_image_two → save_diff_to ≠ Some q →
       files (compare_images image_one image_two ssim_threshold save_diff_to w).1
         !! q = files w !! q.
Proof.
  destruct (decode (files w !! image_one)) as [one|] eqn:Hone;
    [|by rewrite compare_images_unreadable by auto].
  destruct (decode (files w !! image_two)) as [two|] eqn:Htwo;
    [|by rewrite compare_images_unreadable by auto].
  destruct (compare_ssim (gray one) (gray two)) as [[score diff]|e] eqn:Hssim;
    [|by erewrite compare_images_unscored by done].
  erewrite compare_images_scored by done.
  destruct (Qltb score ssim_threshold); [|done].
  destruct save_diff_to as [file_path|]; [|done].
  destruct (save_image_diff_same_outside (annotated diff one two).1
              (annotated diff one two).2 file_path (printed w score))
    as (Hwritable & _ & _ & Hfiles).
  destruct (_save_image_diff _ _ file_path (printed w score)) as [w' [[]|e]];
    simpl in *; (split; [done|]); intros q Hq1 Hq2 Hq; apply Hfiles;
    intros [?|[?|?]]; congruence.
Qed.

End Outcomes.

(** * The claims *)

(** C6.  When either input path is missing or does not hold a decodable
    picture, [compare_images] raises the decode error ([cv2.error]): no score
    is returned, nothing is printed and storage is left as it was. *)
Theorem compare_images_decode_error `{Vision} image_one image_two ssim_threshold
    save_diff_to w :
  undecodable w image_one ∨ undecodable w image_two →
  compare_images image_one image_two ssim_threshold save_diff_to w
  = (w, Raise Cv2Error).
Proof.
  intros Hbad. apply compare_images_unreadable.
  destruct Hbad as [Hbad|Hbad]; [left|right]; by apply decode_None.
Qed.

Lemma compare_images_decode_error_witness :
  compare_images "a.png" "notes.txt" 1 (Some "my-diff.png") Sample.open_world
  = (Sample.open_world, Raise Cv2Error).
Proof.
  apply (compare_images_decode_error "a.png" "notes.txt" 1 (Some "my-diff.png")
           Sample.open_world).
  right. right. left. vm_compute. reflexivity.
Defined.

(** C5.  When the grey grids of the two inputs differ in width or in height,
    [compare_images] raises the dimension-mismatch error ([ValueError]) at the
    scoring step: no score is returned, nothing is printed, and storage is
    left as it was, so no artifact and no temporary file has been written. *)
Theorem compare_images_dimension_mismatch `{Vision} image_one image_two
    ssim_threshold save_diff_to w one two :
  decode (files w !! image_one) = Some one →
  decode (files w !! image_two) = Some two →
  width (gray one) ≠ width (gray two) ∨ height (gray one) ≠ height (gray two) →
  compare_images image_one image_two ssim_threshold save_diff_to w
  = (w, Raise ValueError).
Proof.
  intros Hone Htwo Hdiffer. eapply compare_images_unscored; [done..|].
  unfold compare_ssim. case_decide as Hshape; [|done].
  unfold shape in Hshape. injection Hshape as Hh Hw.
  destruct Hdiffer; congruence.
Qed.

Lemma compare_images_dimension_mismatch_witness :
  compare_images "a.png" "c.png" 1 (Some "my-diff.png") Sample.open_world
  = (Sample.open_world, Raise ValueError).
Proof.
  eapply (compare_images_dimension_mismatch "a.png" "c.png" 1 (Some "my-diff.png")
            Sample.open_world).
  - vm_compute. reflexivity.
  - vm_compute. reflexivity.
  - left. vm_compute. lia.
Defined.




(** C7.  When the score is strictly below the threshold and [save_diff_to] is
    [None], [compare_images] returns the score; it prints it and leaves
    storage as it was, so no artifact file is created. *)
Theorem compare_images_no_destination `{Vision} image_one image_two ssim_threshold
    w one two score diff :
  decode (files w !! image_one) = Some one →
  decode (files w !! image_two) = Some two →
  compare_ssim (gray one) (gray two) = Ok (score, diff) →
  (score < ssim_threshold)%Q →
  compare_images image_one image_two ssim_threshold None w
  = (printed w score, Ok score).
Proof.
  intros Hone Htwo Hssim Hlt.
  rewrite (compare_images_scored _ _ _ _ _ one two score diff) by done.
  apply Qltb_lt in Hlt. by rewrite Hlt.
Qed.

Lemma compare_images_no_destination_witness :
  compare_images "a.png" "b.png" 1 None Sample.open_world
  = (printed Sample.open_world (1 # 2), Ok (1 # 2)%Q).
Proof.
  eapply (compare_images_no_destination "a.png" "b.png" 1 Sample.open_world).
  - vm_compute. reflexivity.
  - vm_compute. reflexivity.
  - vm_compute. reflexivity.
  - vm_compute. reflexivity.
Defined.

(** C9.  The score depends on the world only through the two input files.  If
    a run returns the score [s], then any run on the same two paths in a world
    whose two input files are unmodified (the world left by the first run, for
    instance) prints the same [s], and returns that same [s] whenever it
    returns a score. *)
Theorem compare_images_deterministic `{Vision} image_one image_two
    ssim_threshold ssim_threshold' save_diff_to save_diff_to' w w' s :
  files w' !! image_one = files w !! image_one →
  files w' !! image_two = files w !! image_two →
  (compare_images image_one image_two ssim_threshold save_diff_to w).2 = Ok s →
  stdout (compare_images image_one image_two ssim_threshold' save_diff_to' w').1
  = (stdout w' ++ [s])%list ∧
  ∀ s', (compare_images image_one image_two ssim_threshold' save_diff_to' w').2
        = Ok s' → s' = s.
Proof.
  intros Hsame_one Hsame_two Hrun.
  destruct (decode (files w !! image_one)) as [one|] eqn:Hone;
    [|by rewrite compare_images_unreadable in Hrun by auto].
  destruct (decode (files w !! image_two)) as [two|] eqn:Htwo;
    [|by rewrite compare_images_unreadable in Hrun by auto].
  destruct (compare_ssim (gray one) (gray two)) as [[score diff]|e] eqn:Hssim;
    [|by erewrite compare_images_unscored in Hrun by done].
  assert (score = s) as ->.
  { erewrite compare_images_scored in Hrun by done.
    destruct (Qltb score ssim_threshold); [|by simplify_eq/=].
    destruct save_diff_to as [file_path|]; [|by simplify_eq/=].
    destruct (_save_image_diff _ _ file_path (printed w score)) as [w1 [[]|e]];
      by simplify_eq/=. }
  rewrite <- Hsame_one in Hone. rewrite <- Hsame_two in Htwo.
  erewrite compare_images_scored by done.
  destruct (Qltb s ssim_threshold'); [|by split; [|intros s' [= <-]]].
  destruct save_diff_to' as [file_path|]; [|by split; [|intros s' [= <-]]].
  pose proof (save_image_diff_stdout (annotated diff one two).1
                (annotated diff one two).2 file_path (printed w' s)) as Hstdout.
  destruct (_save_image_diff _ _ file_path (printed w' s)) as [w1 [[]|e]];
    simpl in *; (split; [done|]); by intros s' [= <-].
Qed.

Lemma compare_images_deterministic_witness :
  let w1 := (compare_images "a.png" "b.png" 1 (Some "my-diff.png")
               Sample.open_world).1 in
  stdout (compare_images "a.png" "b.png" 1 (Some "my-diff.png") w1).1
  = (stdout w1 ++ [(1 # 2)%Q])%list ∧
  ∀ s', (compare_images "a.png" "b.png" 1 (Some "my-diff.png") w1).2 = Ok s' →
        s' = (1 # 2)%Q.
Proof.
  intros w1.
  apply (compare_images_deterministic "a.png" "b.png" 1 1 (Some "my-diff.png")
           (Some "my-diff.png") Sample.open_world w1 (1 # 2)%Q).
  - vm_compute. reflexivity.
  - vm_compute. reflexivity.
  - vm_compute. reflexivity.
Defined.

(** C1, as stated, fails, in two ways.  The score 1/2 is below the threshold
    1 and [save_diff_to] is a path, and the call returns its score, yet no
    artifact is at the destination: (1) a destination that cannot be written
    makes Pillow's [save] raise, and the bare [except] discards the error;
    (2) a destination that is one of the two temporary names is removed again
    by the [finally]. *)
Lemma diff_artifact_missing :
  let one := gmap_grid bgr_of_rgb Sample.picture_a in
  let two := gmap_grid bgr_of_rgb Sample.picture_b in
  ∃ diff,
    compare_ssim (gray one) (gray two) = Ok ((1 # 2)%Q, diff) ∧
    (1 # 2 < 1)%Q ∧
    (∃ w', compare_images "a.png" "b.png" 1 (Some "my-diff.png")
             Sample.guarded_world = (w', Ok (1 # 2)%Q) ∧
           ¬ diff_artifact_at w' "my-diff.png" one two
               (annotated diff one two).1 (annotated diff one two).2) ∧
    (∃ w', compare_images "a.png" "b.png" 1 (Some _temp_image_one)
             Sample.open_world = (w', Ok (1 # 2)%Q) ∧
           ¬ diff_artifact_at w' _temp_image_one one two
               (annotated diff one two).1 (annotated diff one two).2).
Proof.
  intros one two. eexists. split_and!.
  - vm_compute. reflexivity.
  - reflexivity.
  - eexists. split; [vm_compute; reflexivity|].
    intros (fmt & artifact & Hfile & _). vm_compute in Hfile. discriminate.
  - eexists. split; [vm_compute; reflexivity|].
    intros (fmt & artifact & Hfile & _). vm_compute in Hfile. discriminate.
Qed.

(** C1, amended.  When the score is strictly below the threshold,
    [save_diff_to] is a path, the two temporary files and the destination can
    be written (the process is permitted to and none of the three names is a
    directory), and the destination is neither of the two temporary names,
    then after the call the destination holds a picture whose width is the sum
    of the two input widths and whose height is the larger of the two input
    heights, with the first annotated image at the origin and the second
    immediately to its right.  The call returns the score when the two
    temporary files may be removed again; when they may not, it ends in the
    error of the [finally] with the artifact in place. *)
Theorem diff_artifact_saved `{Vision} image_one image_two ssim_threshold file_path
    w one two score diff :
  decode (files w !! image_one) = Some one →
  decode (files w !! image_two) = Some two →
  rectangular one → rectangular two →
  compare_ssim (gray one) (gray two) = Ok (score, diff) →
  (score < ssim_threshold)%Q →
  can_write w _temp_image_one = true →
  can_write w _temp_image_two = true →
  can_write w file_path = true →
  file_path ≠ _temp_image_one → file_path ≠ _temp_image_two →
  ∃ w' outcome,
    compare_images image_one image_two ssim_threshold (Some file_path) w
    = (w', outcome) ∧
    diff_artifact_at w' file_path one two
      (annotated diff one two).1 (annotated diff one two).2 ∧
    (unlinkable w _temp_image_one = true →
     unlinkable w _temp_image_two = true → outcome = Ok score).
Proof.
  intros Hone Htwo Hrect_one Hrect_two Hssim Hlt Hw1 Hw2 Hwp Hne1 Hne2.
  rewrite (compare_images_scored _ _ _ _ _ one two score diff) by done.
  apply Qltb_lt in Hlt. rewrite Hlt.
  pose proof (save_image_diff_destination (annotated diff one two).1
                (annotated diff one two).2 file_path (printed w score)
                Hw1 Hw2 Hne1 Hne2) as Hdest.
  assert (can_write (printed w score) file_path = true) as Hwp' by done.
  rewrite Hwp' in Hdest.
  assert (unlinkable w _temp_image_one = true →
          unlinkable w _temp_image_two = true →
          (_save_image_diff (annotated diff one two).1 (annotated diff one two).2
             file_path (printed w score)).2 = Ok ()) as Hreturn.
  { intros Hperm1 Hperm2. by rewrite save_image_diff_written. }
  destruct (draw_boxes_shape (findContours (threshold_otsu_inv (rescale diff)))
              one two) as [Hs1 Hs2].
  destruct (draw_boxes_rectangular
              (findContours (threshold_otsu_inv (rescale diff))) one two)
    as [Hr1 Hr2]; [done..|].
  fold (annotated diff one two) in Hs1, Hs2, Hr1, Hr2.
  destruct (annotated diff one two) as [boxed_one boxed_two]. simpl in *.
  unfold shape in Hs1, Hs2. injection Hs1 as Hh1 Hw1'. injection Hs2 as Hh2 Hw2'.
  pose proof (rectangular_gmap_grid rgb_of_bgr _ Hr1) as Hp1.
  pose proof (rectangular_gmap_grid rgb_of_bgr _ Hr2) as Hp2.
  destruct (_save_image_diff boxed_one boxed_two file_path (printed w score))
    as [w' outcome]. simpl in Hdest, Hreturn.
  exists w', (match outcome with Ok _ => Ok score | Raise e => Raise e end).
  split; [by destruct outcome|]. split.
  - exists PNG, (side_by_side [gmap_grid rgb_of_bgr boxed_one;
                               gmap_grid rgb_of_bgr boxed_two]).
    split_and!.
    + done.
    + rewrite side_by_side_width by done. rewrite !width_gmap_grid. congruence.
    + rewrite side_by_side_height. rewrite !height_gmap_grid. congruence.
    + intros x y Hx Hy. rewrite side_by_side_first.
      * apply pixel_at_gmap_grid.
      * done.
      * rewrite width_gmap_grid. congruence.
      * rewrite height_gmap_grid. congruence.
    + intros x y Hx Hy.
      replace (width one) with (width (gmap_grid rgb_of_bgr boxed_one))
        by (rewrite width_gmap_grid; congruence).
      rewrite side_by_side_second.
      * apply pixel_at_gmap_grid.
      * done.
      * rewrite width_gmap_grid. congruence.
      * rewrite height_gmap_grid. congruence.
  - intros Hperm1 Hperm2. by rewrite Hreturn.
Qed.

Lemma diff_artifact_saved_witness :
  let one := gmap_grid bgr_of_rgb Sample.picture_a in
  let two := gmap_grid bgr_of_rgb Sample.picture_b in
  let diff := Sample.pixel_map (gray one) (gray two) in
  ∃ w' outcome,
    compare_images "a.png" "b.png" 1 (Some "my-diff.png") Sample.open_world
    = (w', outcome) ∧
    diff_artifact_at w' "my-diff.png" one two
      (annotated diff one two).1 (annotated diff one two).2 ∧
    (unlinkable Sample.open_world _temp_image_one = true →
     unlinkable Sample.open_world _temp_image_two = true →
     outcome = Ok (1 # 2)%Q).
Proof.
  intros one two diff.
  apply (diff_artifact_saved "a.png" "b.png" 1 "my-diff.png" Sample.open_world
           one two (1 # 2)%Q diff).
  - vm_compute. reflexivity.
  - vm_compute. reflexivity.
  - vm_compute. split_and!; [lia..|repeat constructor].
  - vm_compute. split_and!; [lia..|repeat constructor].
  - vm_compute. reflexivity.
  - vm_compute. reflexivity.
  - reflexivity.
  - reflexivity.
  - reflexivity.
  - discriminate.
  - discriminate.
Defined.

(** C8, as stated, fails: the destination 'd.jpg' asks for a JPEG file, and
    the picture saved there is a PNG. *)
Lemma artifact_not_in_format_of_path :
  format_of_path "d.jpg" = Some JPEG ∧
  ¬ in_format_of_path
      (compare_images "a.png" "b.png" 1 (Some "d.jpg") Sample.open_world).1 "d.jpg".
Proof.
  split; [reflexivity|]. intros Hformat.
  assert (∃ pixels,
             files (compare_images "a.png" "b.png" 1 (Some "d.jpg")
                      Sample.open_world).1 !! "d.jpg"
             = Some (Picture PNG pixels)) as [pixels Hfile].
  { vm_compute. eexists. reflexivity. }
  specialize (Hformat PNG pixels Hfile). clear Hfile.
  vm_compute in Hformat. discriminate Hformat.
Qed.

(** C8, amended.  Whatever [compare_images] writes at the destination is a
    PNG picture, whatever format the destination's name asks for: a file found
    at the destination after the call either was there before, unchanged, or
    is a PNG picture. *)
Theorem artifact_saved_as_png `{Vision} image_one image_two ssim_threshold file_path
    w f :
  files (compare_images image_one image_two ssim_threshold (Some file_path) w).1
    !! file_path = Some f →
  files w !! file_path ≠ Some f →
  ∃ pixels, f = Picture PNG pixels.
Proof.
  intros Hafter Hbefore.
  by destruct (compare_images_new_files_png image_one image_two ssim_threshold
                 (Some file_path) w file_path f Hafter).
Qed.

Lemma artifact_saved_as_png_witness :
  let after := (compare_images "a.png" "b.png" 1 (Some "d.jpg")
                  Sample.open_world).1 in
  ∃ pixels, default NotAnImage (files after !! "d.jpg") = Picture PNG pixels.
Proof.
  intros after.
  apply (artifact_saved_as_png "a.png" "b.png" 1 "d.jpg" Sample.open_world).
  - vm_compute. reflexivity.
  - vm_compute. discriminate.
Defined.

(** C3: the code at a failing input.  In a read-only directory neither
    temporary file is written; [Image.open] raises inside the [try], the bare
    [except] discards that, and the first [remove] of the [finally] raises
    [FileNotFoundError], which leaves [compare_images]: the score 1/2 has been
    printed and is not returned. *)
Theorem cleanup_error_escapes :
  compare_images "a.png" "b.png" default_ssim_threshold default_save_diff_to
    Sample.readonly_world
  = (printed Sample.readonly_world (1 # 2),
     Raise (FileNotFoundError _temp_image_one)).
Proof. vm_compute. reflexivity. Qed.

(** C4: the code at a failing input.  The working directory is writable and
    holds a sub-directory with the name of the first temporary file.  The
    first temporary file is not written and the second one is; [Image.open]
    raises inside the [try] and the bare [except] discards that; the first
    [remove] of the [finally] raises on the directory, the second [remove] is
    skipped, and the second temporary picture is still there when the call is
    over. *)
Theorem temp_file_left_behind :
  let run := compare_images "a.png" "b.png" default_ssim_threshold
               default_save_diff_to Sample.blocked_world in
  run.2 = Raise (OSError _temp_image_one) ∧
  ∃ pixels, files run.1 !! _temp_image_two = Some (Picture PNG pixels).
Proof. split; [vm_compute; reflexivity|]. vm_compute. eexists. reflexivity. Qed.

(** C10, as stated, fails: not every call writes its two temporary files.
    In a read-only directory neither name holds the PNG of its array after
    lines 99 to 102, and a read-only picture that bears the first name is not
    overwritten; [cv2.imwrite] reports this by its result, which is not looked
    at. *)
Lemma temp_files_not_written :
  let one := gmap_grid bgr_of_rgb Sample.picture_a in
  let two := gmap_grid bgr_of_rgb Sample.picture_b in
  ¬ temps_hold (write_temp_images one two Sample.readonly_world).1 one two ∧
  ¬ temps_hold (write_temp_images one two Sample.stale_world).1 one two ∧
  files (write_temp_images one two Sample.stale_world).1 !! _temp_image_one
  = Some (Picture PNG Sample.picture_c).
Proof.
  intros one two. split_and!.
  - intros [Hone _]. vm_compute in Hone. discriminate Hone.
  - intros [Hone _]. vm_compute in Hone. discriminate Hone.
  - vm_compute. reflexivity.
Qed.

(** C10, amended.  Whatever the two arrays and the destination are, the call
    attempts to write the two arrays under the fixed names
    '.temp-image-diff-one.png' and '.temp-image-diff-two.png' before anything
    else.  (1) The guarded block and the [finally] of [_save_image_diff] start
    in a world in which a name at which a file can be written holds the PNG of
    its array, whatever it held before, every other path holds what it held,
    and permissions and output are as before.  (2) When both names can be
    written and the first may not be removed, both PNGs are found under the
    two names after the call.  (3) Over the whole call, nothing but these two
    names and the destination changes. *)
Theorem temp_files_fixed `{Vision} image_one image_two file_path w :
  (∃ w1,
     (∀ q, files w1 !! q =
           if decide (q = _temp_image_two) then
             if can_write w _temp_image_two
             then Some (Picture PNG (gmap_grid rgb_of_bgr image_two))
             else files w !! q
           else if decide (q = _temp_image_one) then
             if can_write w _temp_image_one
             then Some (Picture PNG (gmap_grid rgb_of_bgr image_one))
             else files w !! q
           else files w !! q) ∧
     writable w1 = writable w ∧ unlinkable w1 = unlinkable w ∧
     stdout w1 = stdout w ∧
     _save_image_diff image_one image_two file_path w
     = try_finally (try_except_pass (compose_diff file_path))
         remove_temp_images w1) ∧
  (can_write w _temp_image_one = true → can_write w _temp_image_two = true →
   unlinkable w _temp_image_one = false →
   file_path ≠ _temp_image_one → file_path ≠ _temp_image_two →
   temps_hold (_save_image_diff image_one image_two file_path w).1
     image_one image_two) ∧
  same_outside (diff_paths file_path) w
    (_save_image_diff image_one image_two file_path w).1.
Proof.
  pose proof temp_names_differ as Hne.
  split_and!; [| |apply save_image_diff_same_outside].
  - exists (set_files w (temps_attempted image_one image_two w)).
    split_and!; [|done..|].
    + intros q. unfold temps_attempted. simpl files.
      destruct (can_write w _temp_image_one), (can_write w _temp_image_two);
        repeat case_decide; by simplify_map_eq.
    + unfold _save_image_diff. by rewrite run_bind, write_temp_images_run.
  - intros Hw1 Hw2 Hpinned Hp1 Hp2.
    rewrite save_image_diff_composed by done.
    match goal with
    | |- context [remove_temp_images ?w2] =>
        pose proof (remove_temp_images_run w2) as Hrun;
        assert (can_remove w2 _temp_image_one = false) as Hstuck
          by (unfold can_remove; simpl; rewrite Hpinned; apply andb_false_r)
    end.
    rewrite Hstuck in Hrun. destruct Hrun as (e & -> & _). simpl fst.
    unfold temps_hold, temps_written. simpl files.
    destruct (can_write _ file_path); split; by simplify_map_eq.
Qed.

(** What the model does in a read-only directory whose three files may be
    overwritten: both temporary files and the diff are written, the first
    [remove] is refused, and all three stay. *)
Lemma pinned_world_run :
  let run := compare_images "a.png" "b.png" default_ssim_threshold
               default_save_diff_to Sample.pinned_world in
  run.2 = Raise (OSError _temp_image_one) ∧
  (∃ pixels, files run.1 !! _temp_image_one = Some (Picture PNG pixels)) ∧
  (∃ pixels, files run.1 !! _temp_image_two = Some (Picture PNG pixels)) ∧
  (∃ pixels, files run.1 !! "my-diff.png" = Some (Picture PNG pixels)).
Proof.
  split_and!; [vm_compute; reflexivity|..]; vm_compute; eexists; reflexivity.
Qed.

(** * Further properties of the script *)


(** X1.  When the score is not below the threshold (equal to it included),
    [compare_images] prints and returns the score and leaves storage exactly
    as it was, whatever [save_diff_to] is: nothing is written, and a file
    already at the destination, such as the diff of an earlier run, stays. *)
Theorem compare_images_within_threshold `{Vision} image_one image_two
    ssim_threshold save_diff_to w one two score diff :
  decode (files w !! image_one) = Some one →
  decode (files w !! image_two) = Some two →
  compare_ssim (gray one) (gray two) = Ok (score, diff) →
  (ssim_threshold <= score)%Q →
  compare_images image_one image_two ssim_threshold save_diff_to w
  = (printed w score, Ok score).
Proof.
  intros Hone Htwo Hssim Hle.
  rewrite (compare_images_scored _ _ _ _ _ one two score diff) by done.
  apply Qltb_ge in Hle. by rewrite Hle.
Qed.

Lemma compare_images_within_threshold_witness :
  compare_images "a.png" "b.png" (1 # 2) (Some "my-diff.png") Sample.open_world
  = (printed Sample.open_world (1 # 2), Ok (1 # 2)%Q).
Proof.
  eapply (compare_images_within_threshold "a.png" "b.png" (1 # 2)
            (Some "my-diff.png") Sample.open_world).
  - vm_compute. reflexivity.
  - vm_compute. reflexivity.
  - vm_compute. reflexivity.
  - vm_compute. discriminate.
Defined.

(** X2.  Whenever the scorer gives a score, [compare_images] prints it, once,
    whatever the threshold and the destination are and whether the call then
    returns or raises. *)
Theorem compare_images_prints_score `{Vision} image_one image_two ssim_threshold
    save_diff_to w one two score diff :
  decode (files w !! image_one) = Some one →
  decode (files w !! image_two) = Some two →
  compare_ssim (gray one) (gray two) = Ok (score, diff) →
  stdout (compare_images image_one image_two ssim_threshold save_diff_to w).1
  = (stdout w ++ [score])%list.
Proof.
  intros Hone Htwo Hssim.
  rewrite (compare_images_scored _ _ _ _ _ one two score diff) by done.
  destruct (Qltb score ssim_threshold); [|done].
  destruct save_diff_to as [file_path|]; [|done].
  pose proof (save_image_diff_stdout (annotated diff one two).1
                (annotated diff one two).2 file_path (printed w score)) as Hstdout.
  by destruct (_save_image_diff _ _ file_path (printed w score)) as [w' [[]|e]].
Qed.

Lemma compare_images_prints_score_witness :
  stdout (compare_images "a.png" "b.png" 1 (Some "my-diff.png")
            Sample.blocked_world).1
  = (stdout Sample.blocked_world ++ [(1 # 2)%Q])%list.
Proof.
  eapply (compare_images_prints_score "a.png" "b.png" 1 (Some "my-diff.png")
            Sample.blocked_world).
  - vm_compute. reflexivity.
  - vm_compute. reflexivity.
  - vm_compute. reflexivity.
Defined.

(** X3.  The only exceptions that leave [_save_image_diff] are those of the
    two [os.remove] calls of the [finally]: an error of opening the temporary
    files, of composing, or of saving at the destination never reaches the
    caller. *)
Theorem save_image_diff_raises_only_from_remove `{Vision} image_one image_two
    file_path w e :
  (_save_image_diff image_one image_two file_path w).2 = Raise e →
  e = FileNotFoundError _temp_image_one ∨ e = OSError _temp_image_one ∨
  e = FileNotFoundError _temp_image_two ∨ e = OSError _temp_image_two.
Proof. apply save_image_diff_raise_inv. Qed.

Lemma save_image_diff_raises_only_from_remove_witness :
  FileNotFoundError ".temp-image-diff-one.png"
  = FileNotFoundError _temp_image_one ∨
  FileNotFoundError ".temp-image-diff-one.png" = OSError _temp_image_one ∨
  FileNotFoundError ".temp-image-diff-one.png"
  = FileNotFoundError _temp_image_two ∨
  FileNotFoundError ".temp-image-diff-one.png" = OSError _temp_image_two.
Proof.
  apply (save_image_diff_raises_only_from_remove
           (gmap_grid bgr_of_rgb Sample.picture_a)
           (gmap_grid bgr_of_rgb Sample.picture_b)
           "my-diff.png" Sample.readonly_world).
  vm_compute. reflexivity.
Defined.

(** X4.  [_save_image_diff] returns normally exactly when each of the two
    temporary names is disposable: the entry may be removed, and a file can be
    written there or a file (not a directory) is there already.  The
    destination plays no part. *)
Theorem save_image_diff_returns_iff `{Vision} image_one image_two file_path w :
  (_save_image_diff image_one image_two file_path w).2 = Ok () ↔
  disposable w _temp_image_one = true ∧ disposable w _temp_image_two = true.
Proof.
  rewrite save_image_diff_phases.
  rewrite <- (save_image_diff_can_remove image_one image_two file_path w
                _temp_image_one) by auto.
  rewrite <- (save_image_diff_can_remove image_one image_two file_path w
                _temp_image_two) by auto.
  pose proof (remove_temp_images_run
                (try_except_pass (compose_diff file_path)
                   (set_files w (temps_attempted image_one image_two w))).1)
    as Hrun.
  destruct (can_remove _ _temp_image_one);
    [destruct (can_remove _ _temp_image_two)|].
  - by rewrite Hrun.
  - destruct Hrun as (e' & -> & _). simpl. split; [done|]. by intros [_ ?].
  - destruct Hrun as (e' & -> & _). simpl. split; [done|]. by intros [? _].
Qed.

(** X5.  When [_save_image_diff] returns normally, neither temporary name is
    on storage afterwards, whatever the two names held before the call: a
    file of the user's that bears one of the two names is lost. *)
Theorem save_image_diff_return_removes_temps `{Vision} image_one image_two
    file_path w :
  (_save_image_diff image_one image_two file_path w).2 = Ok () →
  files (_save_image_diff image_one image_two file_path w).1 !! _temp_image_one
  = None ∧
  files (_save_image_diff image_one image_two file_path w).1 !! _temp_image_two
  = None.
Proof.
  rewrite save_image_diff_phases.
  pose proof (remove_temp_images_run
                (try_except_pass (compose_diff file_path)
                   (set_files w (temps_attempted image_one image_two w))).1)
    as Hrun.
  destruct (can_remove _ _temp_image_one);
    [destruct (can_remove _ _temp_image_two)|].
  - rewrite Hrun. intros _. simpl files. split.
    + rewrite lookup_delete_ne by (symmetry; apply temp_names_differ).
      apply lookup_delete_eq.
    + apply lookup_delete_eq.
  - by destruct Hrun as (e' & -> & _).
  - by destruct Hrun as (e' & -> & _).
Qed.

Lemma save_image_diff_return_removes_temps_witness :
  let after := (_save_image_diff (gmap_grid bgr_of_rgb Sample.picture_a)
                  (gmap_grid bgr_of_rgb Sample.picture_b) "my-diff.png"
                  Sample.stale_world).1 in
  files after !! _temp_image_one = None ∧ files after !! _temp_image_two = None.
Proof.
  intros after.
  apply (save_image_diff_return_removes_temps
           (gmap_grid bgr_of_rgb Sample.picture_a)
           (gmap_grid bgr_of_rgb Sample.picture_b)
           "my-diff.png" Sample.stale_world).
  vm_compute. reflexivity.
Defined.

(** X6.  [compare_images] changes no permission, and no path other than the
    two temporary names and the destination: in particular an input file
    keeps its content unless its path is one of these three. *)
Theorem compare_images_leaves_other_paths `{Vision} image_one image_two
    ssim_threshold save_diff_to w :
  writable (compare_images image_one image_two ssim_threshold save_diff_to w).1
  = writable w ∧
  ∀ q, q ≠ _temp_image_one → q ≠ _temp_image_two → save_diff_to ≠ Some q →
       files (compare_images image_one image_two ssim_threshold save_diff_to w).1
         !! q = files w !! q.
Proof. apply compare_images_same_outside. Qed.

(** One call of [cv2.rectangle] repaints the covered pixels and no other. *)
Lemma pixel_at_rectangle `{Vision} img pt1 pt2 color thickness x y :
  pixel_at (rectangle img pt1 pt2 color thickness) x y
  = (λ px, if outline_covers pt1 pt2 thickness (Z.of_nat x) (Z.of_nat y)
           then color else px) <$> pixel_at img x y.
Proof.
  unfold pixel_at, rectangle. rewrite list_lookup_imap.
  destruct (img !! y) as [row|]; simpl; [|done]. by rewrite list_lookup_imap.
Qed.

(** X7.  After the loop of lines 72 to 75 a pixel of either array is red when
    the outline of some contour's bounding box covers it, and is the pixel of
    the input otherwise; both arrays are boxed at the same places. *)
Theorem draw_boxes_pixels `{Vision} contours one two x y :
  pixel_at (draw_boxes contours one two).1 x y
  = (λ px, if boxed contours x y then box_color else px) <$> pixel_at one x y ∧
  pixel_at (draw_boxes contours one two).2 x y
  = (λ px, if boxed contours x y then box_color else px) <$> pixel_at two x y.
Proof.
  unfold draw_boxes. revert one two.
  induction contours as [|c contours IH]; intros one two.
  - simpl. by destruct (pixel_at one x y), (pixel_at two x y).
  - simpl. unfold box_covers. destruct (boundingRect c) as [[[cx cy] cw] ch].
    destruct (IH (rectangle one (cx, cy) (cx + cw, cy + ch)%Z (0, 0, 255)%Z 2)
                 (rectangle two (cx, cy) (cx + cw, cy + ch)%Z (0, 0, 255)%Z 2))
      as [IH1 IH2].
    rewrite IH1, IH2, !pixel_at_rectangle. unfold box_color.
    destruct (pixel_at one x y), (pixel_at two x y); simpl;
      by destruct (outline_covers (cx, cy) (cx + cw, cy + ch)%Z 2
                     (Z.of_nat x) (Z.of_nat y)), (boxed contours x y).
Qed.

(** X8.  The diff is composed from the files at the temporary names, not from
    the arrays, and the result of [cv2.imwrite] is not looked at: when the
    first temporary file cannot be written and an older picture bears its
    name, the saved diff shows that older picture on its left; when the two
    temporary names may be removed, the call returns normally and the older
    picture is removed. *)
Theorem diff_composed_from_stale_temp `{Vision} image_one image_two file_path w
    fmt older :
  can_write w _temp_image_one = false →
  files w !! _temp_image_one = Some (Picture fmt older) →
  can_write w _temp_image_two = true →
  can_write w file_path = true →
  file_path ≠ _temp_image_one → file_path ≠ _temp_image_two →
  ∃ w' outcome,
    _save_image_diff image_one image_two file_path w = (w', outcome) ∧
    files w' !! file_path
    = Some (Picture PNG (side_by_side [older; gmap_grid rgb_of_bgr image_two])) ∧
    (unlinkable w _temp_image_one = true →
     unlinkable w _temp_image_two = true →
     outcome = Ok () ∧ files w' !! _temp_image_one = None).
Proof.
  intros Hlocked Hstale Htwo Hdest Hne1 Hne2.
  pose proof temp_names_differ as Hne.
  rewrite save_image_diff_phases. unfold temps_attempted.
  rewrite Hlocked, Htwo.
  erewrite guarded_compose_pictures;
    [| simpl files; by simplify_map_eq
     | simpl files; by simplify_map_eq
     | rewrite <- Hdest; unfold can_write; simpl; by rewrite lookup_insert_ne].
  simpl fst. simpl files.
  change (set_files (set_files w ?a) ?b) with (set_files w b).
  match goal with
  | |- context [remove_temp_images ?w2] =>
      pose proof (remove_temp_images_elsewhere w2 file_path Hne1 Hne2) as Helse;
      assert (unlinkable w _temp_image_one = true →
              unlinkable w _temp_image_two = true →
              (remove_temp_images w2).2 = Ok () ∧
              files (remove_temp_images w2).1 !! _temp_image_one = None)
        as Hreturn
  end.
  { intros Hperm1 Hperm2. rewrite remove_temp_pictures; [| | |done..].
    - simpl. split; [done|]. by simplify_map_eq.
    - exists fmt, older. by simplify_map_eq.
    - eexists _, _. by simplify_map_eq. }
  destruct (remove_temp_images _) as [w' outcome]. simpl in *.
  exists w', outcome. split; [done|]. split; [|done].
  rewrite Helse. by simplify_map_eq.
Qed.

Lemma diff_composed_from_stale_temp_witness :
  ∃ w' outcome,
    _save_image_diff (gmap_grid bgr_of_rgb Sample.picture_a)
      (gmap_grid bgr_of_rgb Sample.picture_b) "my-diff.png" Sample.stale_world
    = (w', outcome) ∧
    files w' !! "my-diff.png"
    = Some (Picture PNG
              (side_by_side
                 [Sample.picture_c;
                  gmap_grid rgb_of_bgr (gmap_grid bgr_of_rgb Sample.picture_b)])) ∧
    (unlinkable Sample.stale_world _temp_image_one = true →
     unlinkable Sample.stale_world _temp_image_two = true →
     outcome = Ok () ∧ files w' !! _temp_image_one = None).
Proof.
  apply (diff_composed_from_stale_temp (gmap_grid bgr_of_rgb Sample.picture_a)
           (gmap_grid bgr_of_rgb Sample.picture_b) "my-diff.png" Sample.stale_world
           PNG Sample.picture_c).
  - vm_compute. reflexivity.
  - vm_compute. reflexivity.
  - vm_compute. reflexivity.
  - vm_compute. reflexivity.
  - discriminate.
  - discriminate.
Defined.

(** X9.  A save that fails is silent and leaves the destination alone: when
    the score is below the threshold, both temporary files can be written and
    the destination cannot, what the destination held before (nothing, or an
    older diff) is still there after the call; when the two temporary files
    may be removed, [compare_images] returns the score and both temporary
    files are gone. *)
Theorem compare_images_failed_save_keeps_destination `{Vision} image_one image_two
    ssim_threshold file_path w one two score diff :
  decode (files w !! image_one) = Some one →
  decode (files w !! image_two) = Some two →
  compare_ssim (gray one) (gray two) = Ok (score, diff) →
  (score < ssim_threshold)%Q →
  can_write w _temp_image_one = true →
  can_write w _temp_image_two = true →
  can_write w file_path = false →
  file_path ≠ _temp_image_one → file_path ≠ _temp_image_two →
  ∃ w' outcome,
    compare_images image_one image_two ssim_threshold (Some file_path) w
    = (w', outcome) ∧
    files w' !! file_path = files w !! file_path ∧
    (unlinkable w _temp_image_one = true →
     unlinkable w _temp_image_two = true →
     outcome = Ok score ∧
     files w' !! _temp_image_one = None ∧
     files w' !! _temp_image_two = None).
Proof.
  intros Hone Htwo Hssim Hlt Hw1 Hw2 Hwp Hne1 Hne2.
  rewrite (compare_images_scored _ _ _ _ _ one two score diff) by done.
  apply Qltb_lt in Hlt. rewrite Hlt.
  pose proof (save_image_diff_destination (annotated diff one two).1
                (annotated diff one two).2 file_path (printed w score)
                Hw1 Hw2 Hne1 Hne2) as Hdest.
  assert (can_write (printed w score) file_path = false) as Hwp' by done.
  rewrite Hwp' in Hdest.
  pose proof (save_image_diff_cleans_up (annotated diff one two).1
                (annotated diff one two).2 file_path (printed w score) Hw1 Hw2)
    as Hclean.
  destruct (_save_image_diff _ _ file_path (printed w score)) as [w' outcome].
  simpl in Hdest.
  exists w', (match outcome with Ok _ => Ok score | Raise e => Raise e end).
  split; [by destruct outcome|]. split; [done|].
  intros Hperm1 Hperm2.
  destruct (Hclean Hperm1 Hperm2) as (w'' & [= <- ->] & Hgone1 & Hgone2).
  done.
Qed.

Lemma compare_images_failed_save_keeps_destination_witness :
  ∃ w' outcome,
    compare_images "a.png" "b.png" 1 (Some "my-diff.png") Sample.guarded_world
    = (w', outcome) ∧
    files w' !! "my-diff.png" = files Sample.guarded_world !! "my-diff.png" ∧
    (unlinkable Sample.guarded_world _temp_image_one = true →
     unlinkable Sample.guarded_world _temp_image_two = true →
     outcome = Ok (1 # 2)%Q ∧
     files w' !! _temp_image_one = None ∧
     files w' !! _temp_image_two = None).
Proof.
  eapply (compare_images_failed_save_keeps_destination "a.png" "b.png" 1
            "my-diff.png" Sample.guarded_world).
  - vm_compute. reflexivity.
  - vm_compute. reflexivity.
  - vm_compute. reflexivity.
  - vm_compute. reflexivity.
  - vm_compute. reflexivity.
  - vm_compute. reflexivity.
  - vm_compute. reflexivity.
  - discriminate.
  - discriminate.
Defined.

(** X10.  Once both inputs are decoded and the scorer has given a score,
    [compare_images] either returns exactly that score or raises the error of
    an [os.remove] on a temporary name; no error of Pillow reaches the
    caller. *)
Theorem compare_images_outcomes `{Vision} image_one image_two ssim_threshold
    save_diff_to w one two score diff :
  decode (files w !! image_one) = Some one →
  decode (files w !! image_two) = Some two →
  compare_ssim (gray one) (gray two) = Ok (score, diff) →
  let outcome :=
    (compare_images image_one image_two ssim_threshold save_diff_to w).2 in
  outcome = Ok score ∨
  ∃ e, outcome = Raise e ∧
       (e = FileNotFoundError _temp_image_one ∨ e = OSError _temp_image_one ∨
        e = FileNotFoundError _temp_image_two ∨ e = OSError _temp_image_two).
Proof.
  intros Hone Htwo Hssim. simpl.
  rewrite (compare_images_scored _ _ _ _ _ one two score diff) by done.
  destruct (Qltb score ssim_threshold); [|by left].
  destruct save_diff_to as [file_path|]; [|by left].
  pose proof (save_image_diff_raise_inv (annotated diff one two).1
                (annotated diff one two).2 file_path (printed w score)) as Hinv.
  destruct (_save_image_diff _ _ file_path (printed w score)) as [w' [[]|e]];
    [by left|]. right. exists e. split; [done|]. by apply Hinv.
Qed.

Lemma compare_images_outcomes_witness :
  let outcome :=
    (compare_images "a.png" "b.png" 1 (Some "my-diff.png") Sample.blocked_world).2 in
  outcome = Ok (1 # 2)%Q ∨
  ∃ e, outcome = Raise e ∧
       (e = FileNotFoundError _temp_image_one ∨ e = OSError _temp_image_one ∨
        e = FileNotFoundError _temp_image_two ∨ e = OSError _temp_image_two).
Proof.
  eapply (compare_images_outcomes "a.png" "b.png" 1 (Some "my-diff.png")
            Sample.blocked_world).
  - vm_compute. reflexivity.
  - vm_compute. reflexivity.
  - vm_compute. reflexivity.
Defined.

Lemma can_write_writable w path : can_write w path = true → writable w path = true.
Proof. unfold can_write. by intros [? _]%andb_true_iff. Qed.

(** X11.  Saving the diff is idempotent on storage.  When the score is below
    the threshold, files can be written at the two temporary names and at the
    destination, the two temporary files may be removed, these three paths are
    distinct, and neither input path is one of them, a second identical call
    returns the same score and leaves storage exactly as the first call left
    it. *)
Theorem compare_images_rerun `{Vision} image_one image_two ssim_threshold file_path
    w one two score diff :
  decode (files w !! image_one) = Some one →
  decode (files w !! image_two) = Some two →
  compare_ssim (gray one) (gray two) = Ok (score, diff) →
  (score < ssim_threshold)%Q →
  can_write w _temp_image_one = true →
  can_write w _temp_image_two = true →
  can_write w file_path = true →
  unlinkable w _temp_image_one = true →
  unlinkable w _temp_image_two = true →
  file_path ≠ _temp_image_one → file_path ≠ _temp_image_two →
  image_one ≠ _temp_image_one → image_one ≠ _temp_image_two →
  image_one ≠ file_path →
  image_two ≠ _temp_image_one → image_two ≠ _temp_image_two →
  image_two ≠ file_path →
  ∃ w1 w2,
    compare_images image_one image_two ssim_threshold (Some file_path) w
    = (w1, Ok score) ∧
    compare_images image_one image_two ssim_threshold (Some file_path) w1
    = (w2, Ok score) ∧
    files w2 = files w1.
Proof.
  intros Hone Htwo Hssim Hlt Hw1 Hw2 Hwp Hu1 Hu2 Hp1 Hp2 Ha1 Ha2 Hap Hb1 Hb2 Hbp.
  pose proof temp_names_differ as Hne.
  pose proof (can_write_writable _ _ Hw1) as Hperm1.
  pose proof (can_write_writable _ _ Hw2) as Hperm2.
  pose proof (can_write_writable _ _ Hwp) as Hpermp.
  apply Qltb_lt in Hlt.
  rewrite (compare_images_scored _ _ _ _ _ one two score diff) by done.
  rewrite Hlt. rewrite save_image_diff_written by done.
  destruct (annotated diff one two) as [boxed_one boxed_two] eqn:Hboxed.
  simpl fst. simpl snd.
  assert (can_write (set_files (printed w score)
                       (temps_written boxed_one boxed_two
                          (files (printed w score)))) file_path = true) as ->.
  { unfold temps_written. rewrite <- Hwp. unfold can_write. simpl.
    by rewrite !lookup_insert_ne. }
  eexists _, _. split; [done|].
  rewrite (compare_images_scored _ _ _ _ _ one two score diff);
    [| unfold temps_written; simpl files; by simplify_map_eq
     | unfold temps_written; simpl files; by simplify_map_eq
     | done].
  rewrite Hlt, Hboxed. simpl fst. simpl snd.
  rewrite save_image_diff_written;
    [| unfold can_write, temps_written; simpl; rewrite Hperm1; by simplify_map_eq
     | unfold can_write, temps_written; simpl; rewrite Hperm2; by simplify_map_eq
     | done | done].
  match goal with
  | |- context [if ?c then _ else _] => assert (c = true) as ->
  end.
  { unfold can_write, temps_written. simpl. rewrite Hpermp. by simplify_map_eq. }
  split; [done|]. unfold temps_written. simpl files.
  apply map_eq. intros q.
  destruct (decide (q = _temp_image_two)) as [->|Hq2]; [by simplify_map_eq|].
  destruct (decide (q = _temp_image_one)) as [->|Hq1]; [by simplify_map_eq|].
  destruct (decide (q = file_path)) as [->|Hqp]; by simplify_map_eq.
Qed.

Lemma compare_images_rerun_witness :
  ∃ w1 w2,
    compare_images "a.png" "b.png" 1 (Some "my-diff.png") Sample.open_world
    = (w1, Ok (1 # 2)%Q) ∧
    compare_images "a.png" "b.png" 1 (Some "my-diff.png") w1
    = (w2, Ok (1 # 2)%Q) ∧
    files w2 = files w1.
Proof.
  eapply (compare_images_rerun "a.png" "b.png" 1 "my-diff.png" Sample.open_world).
  - vm_compute. reflexivity.
  - vm_compute. reflexivity.
  - vm_compute. reflexivity.
  - vm_compute. reflexivity.
  - vm_compute. reflexivity.
  - vm_compute. reflexivity.
  - vm_compute. reflexivity.
  - reflexivity.
  - reflexivity.
  - discriminate.
  - discriminate.
  - discriminate.
  - discriminate.
  - discriminate.
  - discriminate.
  - discriminate.
  - discriminate.
Defined.

(** X12.  Line 60 does not wrap around on similarity values between 0 and 1.
    Rounding a product to a double keeps the order of the products and is
    exact on 0 * 255 and on 1 * 255; with that, a value between 0 and 1 is
    turned into the integer part of its rounded product with 255, which lies
    between 0 and 255. *)
Theorem astype_uint8_unit_range `{Vision} (v : Q) :
  (∀ a b, (a <= b)%Q → (float_mul a 255 <= float_mul b 255)%Q) →
  (float_mul 0 255 == 0)%Q →
  (float_mul 1 255 == 255)%Q →
  (0 <= v)%Q → (v <= 1)%Q →
  astype_uint8 (float_mul v 255) = Qfloor (float_mul v 255) ∧
  (0 ≤ astype_uint8 (float_mul v 255) ≤ 255)%Z.
Proof.
  intros Hmono Hzero Hfull Hlow Hhigh.
  assert (0 <= float_mul v 255)%Q as Hpos.
  { eapply Qle_trans; [|apply (Hmono 0%Q v Hlow)]. by rewrite Hzero. }
  assert (float_mul v 255 <= 255)%Q as Hmax.
  { eapply Qle_trans; [apply (Hmono v 1%Q Hhigh)|]. by rewrite Hfull. }
  assert (0 ≤ Qfloor (float_mul v 255) ≤ 255)%Z as Hfloor.
  { split.
    - change 0%Z with (Qfloor 0). by apply Qfloor_resp_le.
    - change 255%Z with (Qfloor 255). by apply Qfloor_resp_le. }
  unfold astype_uint8, Qtrunc.
  apply Qle_bool_iff in Hpos. rewrite Hpos.
  rewrite Z.mod_small by lia. split; [done|lia].
Qed.

Lemma astype_uint8_unit_range_witness :
  astype_uint8 (float_mul (1 # 2) 255) = Qfloor (float_mul (1 # 2) 255) ∧
  (0 ≤ astype_uint8 (float_mul (1 # 2) 255) ≤ 255)%Z.
Proof.
  apply (astype_uint8_unit_range (1 # 2)).
  - intros a b Hab. simpl. apply Qmult_le_compat_r; [done|discriminate].
  - reflexivity.
  - reflexivity.
  - vm_compute. discriminate.
  - vm_compute. discriminate.
Defined.
